(** * Request governance of the question-answering starter

    A shallow embedding of [app/lib/utils/api-helpers.ts] (the TTL cache,
    the retry wrapper, the cache-key generator, the input validator and
    the two rate limiters) and of the question endpoint [POST] handler,
    followed by the properties they satisfy.

    Conventions of the embedding:
    - JavaScript numbers that hold timestamps, durations and counters are
      integers of [Z]; [Date.now()] is an explicit argument [now];
    - a [Map<string, _>] is a [gmap string _]; mutation of an entry held by
      the map ([entry.count++]) is an insert at the same key;
    - [null] / [undefined] results are [None];
    - a function that can throw returns an [outcome]. *)

From stdpp Require Import gmap strings list fin_maps pretty.
From Stdlib Require Import ZArith Lia Ascii.

Set Warnings "-register-all".

Local Open Scope Z_scope.

(** ** Configuration constants *)

(** Modelled from the spec: the module [@/app/config/constants] is imported
    by the sources but is not part of them.  Its constants are "process-wide
    configuration constants": the request quota, the quota window in
    milliseconds and the model identifier. *)
Class Constants := {
  MAX_REQUESTS : Z;
  STORAGE_WINDOW_MS : Z;
  MODEL : string
}.

(** A small configuration to evaluate the definitions on. *)
Definition sample_constants : Constants :=
  {| MAX_REQUESTS := 2; STORAGE_WINDOW_MS := 10; MODEL := "gpt-4.1" |}.

(** ** Server rate limiter *)

Record RateLimitEntry := mkEntry { count : Z; resetTime : Z }.

Module ServerRateLimiter.
Section Defs.
Context `{Constants}.

(** [static checkLimit(ip)]: the answer and the store afterwards. *)
Definition checkLimit (store : gmap string RateLimitEntry) (ip : string) (now : Z)
  : bool * gmap string RateLimitEntry :=
  match store !! ip with
  | None =>
      (true, <[ip := mkEntry 1 (now + STORAGE_WINDOW_MS)]> store)
  | Some entry =>
      if now >? resetTime entry then
        (true, <[ip := mkEntry 1 (now + STORAGE_WINDOW_MS)]> store)
      else if count entry >=? MAX_REQUESTS then
        (false, store)
      else
        (true, <[ip := mkEntry (count entry + 1) (resetTime entry)]> store)
  end.

(** [static getRemaining(ip)]. *)
Definition getRemaining (store : gmap string RateLimitEntry) (ip : string) (now : Z) : Z :=
  match store !! ip with
  | None => MAX_REQUESTS
  | Some entry =>
      if now >? resetTime entry then MAX_REQUESTS
      else Z.max 0 (MAX_REQUESTS - count entry)
  end.

(** [static cleanup()]: drops every entry whose window has elapsed. *)
Definition cleanup (store : gmap string RateLimitEntry) (now : Z)
  : gmap string RateLimitEntry :=
  filter (λ kv, negb (now >? resetTime kv.2) = true) store.

(** A sequence of [checkLimit] calls of one caller, at the given times:
    the answers in order, and the store at the end. *)
Fixpoint run (store : gmap string RateLimitEntry) (ip : string) (times : list Z)
  : list bool * gmap string RateLimitEntry :=
  match times with
  | [] => ([], store)
  | now :: rest =>
      let '(ok, store') := checkLimit store ip now in
      let '(oks, store'') := run store' ip rest in
      (ok :: oks, store'')
  end.

(** Calls of any callers, interleaved. *)
Fixpoint run_calls (store : gmap string RateLimitEntry) (calls : list (string * Z))
  : gmap string RateLimitEntry :=
  match calls with
  | [] => store
  | (ip, now) :: rest => run_calls (checkLimit store ip now).2 rest
  end.
End Defs.
End ServerRateLimiter.

(** ** Client rate limiter *)

Module ClientRateLimiter.
Section Defs.
Context `{Constants}.

Definition storage_key : string := "translation_requests".

(** [JSON.parse(localStorage.getItem('translation_requests') || '[]')]:
    the item only ever holds what [checkLimit] stored, an array of
    timestamps, so [localStorage] is modelled after parsing. *)
Definition requests_of (localStorage : gmap string (list Z)) : list Z :=
  default [] (localStorage !! storage_key).

Definition checkLimit (localStorage : gmap string (list Z)) (now : Z)
  : bool * gmap string (list Z) :=
  let requests := requests_of localStorage in
  let validRequests := filter (λ timestamp, now - timestamp < STORAGE_WINDOW_MS) requests in
  if Z.of_nat (length validRequests) >=? MAX_REQUESTS then
    (false, localStorage)
  else
    (true, <[storage_key := validRequests ++ [now]]> localStorage).

Definition getRemainingRequests (localStorage : gmap string (list Z)) (now : Z) : Z :=
  let requests := requests_of localStorage in
  let validRequests := filter (λ timestamp, now - timestamp < STORAGE_WINDOW_MS) requests in
  Z.max 0 (MAX_REQUESTS - Z.of_nat (length validRequests)).

Fixpoint run (localStorage : gmap string (list Z)) (times : list Z)
  : list bool * gmap string (list Z) :=
  match times with
  | [] => ([], localStorage)
  | now :: rest =>
      let '(ok, ls') := checkLimit localStorage now in
      let '(oks, ls'') := run ls' rest in
      (ok :: oks, ls'')
  end.
End Defs.
End ClientRateLimiter.

(** The answers of a plain counter that starts at [c] and allows a call,
    and counts it, while it is below the quota: what both limiters are
    compared with. *)
Fixpoint quota_answers `{Constants} (c : Z) (n : nat) : list bool :=
  match n with
  | O => []
  | S n' =>
      if bool_decide (c < MAX_REQUESTS) then true :: quota_answers (c + 1) n'
      else false :: quota_answers c n'
  end.

(** ** TTL cache *)

Record CacheEntry (A : Type) := mkCacheEntry { data : A; timestamp : Z; ttl : Z }.
Arguments mkCacheEntry {A} _ _ _.
Arguments data {A} _.
Arguments timestamp {A} _.
Arguments ttl {A} _.

Module ApiCache.
Section Defs.
Context {A : Type}.

(** The default of the parameter [ttl: number = 300000]. *)
Definition default_ttl : Z := 300000.

(** [set(key, data, ttl)]; [None] is an omitted [ttl]. *)
Definition set (cache : gmap string (CacheEntry A)) (key : string) (d : A)
    (ttl_arg : option Z) (now : Z) : gmap string (CacheEntry A) :=
  <[key := mkCacheEntry d now (default default_ttl ttl_arg)]> cache.

(** [get(key)]: the value ([None] is [null]) and the cache afterwards. *)
Definition get (cache : gmap string (CacheEntry A)) (key : string) (now : Z)
  : option A * gmap string (CacheEntry A) :=
  match cache !! key with
  | None => (None, cache)
  | Some item =>
      if now - timestamp item >? ttl item then (None, delete key cache)
      else (Some (data item), cache)
  end.

Definition clear (cache : gmap string (CacheEntry A)) : gmap string (CacheEntry A) := ∅.

(** [delete(key)]: whether an entry was there, and the cache afterwards. *)
Definition delete (cache : gmap string (CacheEntry A)) (key : string)
  : bool * gmap string (CacheEntry A) :=
  (bool_decide (is_Some (cache !! key)), base.delete key cache).

(** Repeated [get]s of one key with nothing in between. *)
Fixpoint gets (cache : gmap string (CacheEntry A)) (key : string) (times : list Z)
  : list (option A) * gmap string (CacheEntry A) :=
  match times with
  | [] => ([], cache)
  | now :: rest =>
      let '(r, cache') := get cache key now in
      let '(rs, cache'') := gets cache' key rest in
      (r :: rs, cache'')
  end.
End Defs.
End ApiCache.

(** ** Thrown values and outcomes *)

(** What a [catch] clause can receive: an [Error] instance, the runtime's
    [TypeError] for taking a property of [undefined] (an [Error] instance
    too), or a value that is no [Error].  The message of the runtime's
    [TypeError] is the engine's; [message_of] gives V8's wording for a
    property read. *)
Inductive thrown :=
  | ErrorInstance (name message : string)
  | TypeErrorReadingUndefined (property : string)
  | OtherValue (description : string).

Definition instanceofError (error : thrown) : bool :=
  match error with
  | ErrorInstance _ _ | TypeErrorReadingUndefined _ => true
  | OtherValue _ => false
  end.

Definition message_of (error : thrown) : string :=
  match error with
  | ErrorInstance _ m => m
  | TypeErrorReadingUndefined p =>
      "Cannot read properties of undefined (reading '" +:+ p +:+ "')"
  | OtherValue _ => ""
  end.

Inductive outcome (T : Type) :=
  | Returned (v : T)
  | Threw (error : thrown).
Arguments Returned {T} _.
Arguments Threw {T} _.

(** ** Retry wrapper *)

Module Retry.
Section Defs.
Context {T : Type}.

(** What one call of [retryRequest] did: how it ended, how many times it
    invoked the operation, and the [setTimeout] delays it waited, in
    order. *)
Record run := mkRun { result : outcome T; calls : nat; waits : list Z }.

(** [error instanceof Error ? error : new Error('Unknown error')] *)
Definition toError (error : thrown) : thrown :=
  if instanceofError error then error else ErrorInstance "Error" "Unknown error".

(** [throw new Error(lastError!.message)] after the loop; [lastError] is
    [None] while it has never been assigned. *)
Definition trailing_throw (lastError : option thrown) : outcome T :=
  match lastError with
  | None => Threw (TypeErrorReadingUndefined "message")
  | Some e => Threw (ErrorInstance "Error" (message_of e))
  end.

(** The [for] loop.  [requestFn k] is how the operation answers the
    invocation that follows [k] earlier ones.  [iterations] is the number
    of values of [attempt] still satisfying [attempt <= maxRetries]. *)
Fixpoint loop (requestFn : nat → outcome T) (maxRetries delay : Z)
    (iterations : nat) (attempt : Z) (lastError : option thrown)
    (ncalls : nat) (waited : list Z) : run :=
  match iterations with
  | O => mkRun (trailing_throw lastError) ncalls waited
  | S iterations' =>
      match requestFn ncalls with
      | Returned v => mkRun (Returned v) (S ncalls) waited
      | Threw error =>
          let lastError := toError error in
          if attempt =? maxRetries then
            mkRun (Threw lastError) (S ncalls) waited
          else
            let waitTime := delay * 2 ^ (attempt - 1) in
            loop requestFn maxRetries delay iterations' (attempt + 1)
                 (Some lastError) (S ncalls) (waited ++ [waitTime])
      end
  end.

(** [retryRequest(requestFn, maxRetries, delay)] for an integer
    [maxRetries]; the defaults are 3 and 1000. *)
Definition retryRequest (requestFn : nat → outcome T)
    (maxRetries : option Z) (delay : option Z) : run :=
  let maxRetries := default 3 maxRetries in
  let delay := default 1000 delay in
  loop requestFn maxRetries delay (Z.to_nat maxRetries) 1 None 0%nat [].

(** The backoff sequence [delay * 2^0, ..., delay * 2^(k-1)]. *)
Definition backoff (delay : Z) (k : nat) : list Z :=
  (λ i : nat, delay * 2 ^ Z.of_nat i) <$> seq 0 k.

(** How a run ends on the outcome of its last invocation. *)
Definition settle (o : outcome T) : outcome T :=
  match o with
  | Returned v => Returned v
  | Threw error => Threw (toError error)
  end.

Definition threw (o : outcome T) : Prop := ∃ error, o = Threw error.

(** The waits before the retries that follow [attempt], [j] of them. *)
Definition waits_from (delay attempt : Z) (j : nat) : list Z :=
  (λ i : nat, delay * 2 ^ (attempt - 1 + Z.of_nat i)) <$> seq 0 j.
End Defs.
Arguments run : clear implicits.
End Retry.

(** ** Cache keys *)

(** The values [JSON.stringify] is applied to.  An object lists its fields
    in its own property order, which for keys that are not array indices is
    the order in which the caller supplied them. *)
Inductive json :=
  | JNull
  | JBool (b : bool)
  | JNumber (n : Z)
  | JString (s : string)
  | JArray (items : list json)
  | JObject (fields : list (string * json)).

Module Json.
Definition dquote : ascii := ascii_of_nat 34.
Definition backslash : ascii := ascii_of_nat 92.

Definition hex_digit (n : nat) : ascii :=
  default "0"%char (String.list_ascii_of_string "0123456789abcdef" !! n).

(** One code unit inside a JSON string literal. *)
Definition escape (c : ascii) : string :=
  let n := nat_of_ascii c in
  if (n =? 34)%nat then String backslash (String dquote "")
  else if (n =? 92)%nat then String backslash (String backslash "")
  else if (n =? 8)%nat then String backslash "b"
  else if (n =? 12)%nat then String backslash "f"
  else if (n =? 10)%nat then String backslash "n"
  else if (n =? 13)%nat then String backslash "r"
  else if (n =? 9)%nat then String backslash "t"
  else if (n <? 32)%nat then
    String backslash
      (String "u" (String "0" (String "0"
        (String (hex_digit (n / 16)) (String (hex_digit (n mod 16)) "")))))
  else String c "".

Fixpoint escape_all (s : string) : string :=
  match s with
  | EmptyString => ""
  | String c s' => escape c +:+ escape_all s'
  end.

Definition quote (s : string) : string :=
  String dquote (escape_all s) +:+ String dquote "".

(** [JSON.stringify(value)], without indentation. *)
Fixpoint stringify (v : json) : string :=
  match v with
  | JNull => "null"
  | JBool true => "true"
  | JBool false => "false"
  | JNumber n => pretty n
  | JString s => quote s
  | JArray items => "[" +:+ String.concat "," (List.map stringify items) +:+ "]"
  | JObject fields =>
      "{" +:+ String.concat ","
               (List.map (λ kv, quote (fst kv) +:+ ":" +:+ stringify (snd kv)) fields)
          +:+ "}"
  end.

(** Truthiness, as the conditional operator tests it. *)
Definition truthy (v : json) : bool :=
  match v with
  | JNull => false
  | JBool b => b
  | JNumber n => negb (n =? 0)
  | JString s => negb (String.eqb s "")
  | JArray _ | JObject _ => true
  end.

(** The value of property [k] of an object: the last field of that name
    wins when the list names one twice. *)
Fixpoint field (k : string) (fields : list (string * json)) : option json :=
  match fields with
  | [] => None
  | kv :: rest =>
      match field k rest with
      | Some v => Some v
      | None => if String.eqb (fst kv) k then Some (snd kv) else None
      end
  end.

End Json.

(** [generateCacheKey(endpoint, params?)]; [None] is an omitted or
    [undefined] [params]. *)
Definition generateCacheKey (endpoint : string) (params : option json) : string :=
  let paramString :=
    match params with
    | Some p => if Json.truthy p then Json.stringify p else ""
    | None => ""
    end in
  endpoint +:+ ":" +:+ paramString.

(** ** Input validator *)

Record Validation := mkValidation { isValid : bool; error : option string }.

Module InputValidator.
Section Defs.
(** The matching of the regular expressions is the engine's: each pattern
    of [suspiciousPatterns] and [spamPatterns] is its [test] function. *)
Context (suspiciousPatterns spamPatterns : list (string → bool)).

(** White space that [trim] strips, among code units below 256. *)
Definition is_whitespace (c : ascii) : bool :=
  let n := nat_of_ascii c in
  ((9 <=? n) && (n <=? 13) || (n =? 32) || (n =? 160))%nat.

Fixpoint trimStart (s : string) : string :=
  match s with
  | EmptyString => ""
  | String c s' => if is_whitespace c then trimStart s' else s
  end.

Definition trim (s : string) : string :=
  String.rev (trimStart (String.rev (trimStart s))).

(** [static validateText(text, max_text_length)]; [None] is a [text]
    that is [undefined] or [null]. *)
Definition validateText (text : option string) (max_text_length : Z) : Validation :=
  match text with
  | None => mkValidation false (Some "Please enter some text to translate")
  | Some text =>
      if String.eqb text "" || (String.length (trim text) =? 0)%nat then
        mkValidation false (Some "Please enter some text to translate")
      else if Z.of_nat (String.length text) >? max_text_length then
        mkValidation false
          (Some ("Text too long. Maximum " +:+ pretty max_text_length
                 +:+ " characters allowed."))
      else if existsb (λ pattern, pattern text) suspiciousPatterns then
        mkValidation false (Some "Potentially malicious content detected")
      else if existsb (λ pattern, pattern text) spamPatterns then
        mkValidation false (Some "Content contains prohibited patterns")
      else mkValidation true None
  end.
End Defs.
End InputValidator.

(** ** Question endpoint handler *)

Record ModerationResult := mkModeration {
  flagged : bool;
  categories : list (string * bool)
}.

Record Response := mkResponse { status : string; output_text : string }.

(** The collaborators of one request: the environment, the two upstream
    calls (how each would answer if made) and the readings of the clock. *)
Record Upstream := mkUpstream {
  OPENAI_API_KEY : option string;
  moderations_create : option string → outcome (list ModerationResult);
  responses_create : string → string → option string → outcome Response;
  now_checkLimit : Z;
  now_getRemaining : Z
}.

Record NextRequest := mkRequest {
  headers : gmap string string;
  (** [await request.json()] destructured to its [input] field *)
  json_input : outcome (option string)
}.

Inductive ResponseBody :=
  | ErrorBody (error : option string)
  | AnswerBody (response : string) (originalInput : option string) (remainingRequests : Z).

Record NextResponse := mkNextResponse { http_status : Z; body : ResponseBody }.

(** What the handler does to the outside, in order. *)
Inductive event :=
  | ReadBody
  | ConsoleError (message : string)
  | ModerationsCreate (input : option string)
  | ResponsesCreate (model instructions : string) (input : option string).

Record HandlerState := mkState {
  store : gmap string RateLimitEntry;
  trace : list event
}.

(** Handler computations: they read and update the limiter store, append
    to the trace, and return or throw. *)
Definition Handler (A : Type) : Type := HandlerState → outcome A * HandlerState.

Module Handler.
Definition ret {A} (a : A) : Handler A := λ s, (Returned a, s).

Definition bind {A B} (m : Handler A) (k : A → Handler B) : Handler B :=
  λ s, match m s with
       | (Returned a, s') => k a s'
       | (Threw e, s') => (Threw e, s')
       end.

Definition throw {A} (e : thrown) : Handler A := λ s, (Threw e, s).

(** [try { m } catch (error) { h error }] *)
Definition try_catch {A} (m : Handler A) (h : thrown → Handler A) : Handler A :=
  λ s, match m s with
       | (Returned a, s') => (Returned a, s')
       | (Threw e, s') => h e s'
       end.

Definition emit (e : event) : Handler unit :=
  λ s, (Returned tt, mkState (store s) (trace s ++ [e])).

(** An awaited call: it is recorded, then it returns or throws. *)
Definition call {A} (e : event) (answer : outcome A) : Handler A :=
  λ s, (answer, mkState (store s) (trace s ++ [e])).
End Handler.

#[global] Instance Handler_ret : MRet Handler := @Handler.ret.
#[global] Instance Handler_bind : MBind Handler := λ A B k m, Handler.bind m k.

Module Question.
Section Defs.
Context `{Constants}.
Context (suspiciousPatterns spamPatterns : list (string → bool)).

(** [a || b] on header values: [null] and the empty string are falsy. *)
Definition or_else (a : option string) (b : string) : string :=
  match a with
  | Some s => if String.eqb s "" then b else s
  | None => b
  end.

Definition checkLimit (ip : string) (now : Z) : Handler bool :=
  λ s, let '(ok, store') := ServerRateLimiter.checkLimit (store s) ip now in
       (Returned ok, mkState store' (trace s)).

Definition getRemaining (ip : string) (now : Z) : Handler Z :=
  λ s, (Returned (ServerRateLimiter.getRemaining (store s) ip now), s).

Definition instructions : string :=
  "You are a helpful assistant who knows general knowledge about the world. Keep your responses to one or two sentances, maximum.".

(** [keys.filter(key => categories[key]).join(', ')] *)
Definition flaggedCategories (cats : list (string * bool)) : list string :=
  fst <$> filter (λ kv, snd kv = true) cats.

(** The body of the [try] block. *)
Definition POST_try (request : NextRequest) (up : Upstream) : Handler NextResponse :=
  let ip := or_else (headers request !! "x-forwarded-for")
              (or_else (headers request !! "x-real-ip") "unknown") in
  ok ← checkLimit ip (now_checkLimit up) ;
  if negb ok then
    mret (mkNextResponse 429
      (ErrorBody (Some "Rate limit exceeded. Please try again later.")))
  else
  input ← Handler.call ReadBody (json_input request) ;
  let textValidation :=
    InputValidator.validateText suspiciousPatterns spamPatterns input 2000 in
  if negb (isValid textValidation) then
    mret (mkNextResponse 400 (ErrorBody (error textValidation)))
  else
  if negb (String.eqb (default "" (OPENAI_API_KEY up)) "") then
    moderatedText ← Handler.call (ModerationsCreate input) (moderations_create up input) ;
    match moderatedText with
    | [] => Handler.throw (TypeErrorReadingUndefined "flagged")
    | first :: _ =>
        if flagged first then
          mret (mkNextResponse 400
            (ErrorBody (Some ("Content flagged as inappropriate: "
               +:+ String.concat ", " (flaggedCategories (categories first))))))
        else
          response ← Handler.call (ResponsesCreate MODEL instructions input)
                       (responses_create up MODEL instructions input) ;
          if negb (String.eqb (status response) "completed") then
            Handler.throw
              (ErrorInstance "Error" ("Responses API error: " +:+ status response))
          else
            remaining ← getRemaining ip (now_getRemaining up) ;
            mret (mkNextResponse 200
              (AnswerBody
                 (if String.eqb (output_text response) "" then "Response recieved"
                  else output_text response)
                 input remaining))
    end
  else
    (Handler.emit (ConsoleError "OpenAI API key not configured") ;;
     mret (mkNextResponse 500
       (ErrorBody (Some "Translation service temporarily unavailable")))).

(** [export async function POST(request)] *)
Definition POST (request : NextRequest) (up : Upstream) : Handler NextResponse :=
  Handler.try_catch (POST_try request up)
    (λ error,
       let errorMessage :=
         if instanceofError error then message_of error else "OpenAI failed" in
       mret (mkNextResponse 500 (ErrorBody (Some errorMessage)))).

(** The response that names the flagged categories of a moderation
    result. *)
Definition flagged_response (result : ModerationResult) : NextResponse :=
  mkNextResponse 400
    (ErrorBody (Some ("Content flagged as inappropriate: "
       +:+ String.concat ", " (flaggedCategories (categories result))))).

Definition rate_limited_response : NextResponse :=
  mkNextResponse 429 (ErrorBody (Some "Rate limit exceeded. Please try again later.")).

(** The events of one request: what the handler appended to the trace. *)
Definition events_of (before after : HandlerState) : list event :=
  drop (length (trace before)) (trace after).

Definition is_completion (e : event) : bool :=
  match e with ResponsesCreate _ _ _ => true | _ => false end.

(** The caller identity the handler resolves. *)
Definition caller (request : NextRequest) : string :=
  or_else (headers request !! "x-forwarded-for")
    (or_else (headers request !! "x-real-ip") "unknown").
End Defs.
End Question.

(** A request and collaborators to evaluate the handler on. *)
Definition sample_upstream : Upstream :=
  mkUpstream (Some "sk-test")
    (λ _, Returned [mkModeration true [("hate", true); ("violence", false); ("self-harm", true)]])
    (λ _ _ _, Returned (mkResponse "completed" "Paris."))
    100 101.

Definition sample_request : NextRequest :=
  mkRequest {["x-real-ip" := "10.0.0.1"]} (Returned (Some "hello")).

(** ** Runs of checks in time order *)

(** The instants do not go back: each is at or after the one before it,
    the first at or after [t0]. *)
Fixpoint nondecreasing_from (t0 : Z) (times : list Z) : Prop :=
  match times with
  | [] => True
  | t :: rest => t0 ≤ t ∧ nondecreasing_from t rest
  end.

(** The instants of the checks that were allowed. *)
Fixpoint allowed_times (answers : list bool) (times : list Z) : list Z :=
  match answers, times with
  | ok :: answers', t :: times' =>
      if ok then t :: allowed_times answers' times' else allowed_times answers' times'
  | _, _ => []
  end.

(** Every entry of the store counts at least one request and at most the
    quota (one, when the quota is below one: the request that opens a
    window is always counted). *)
Definition counts_bounded `{Constants} (store : gmap string RateLimitEntry) : Prop :=
  ∀ ip entry, store !! ip = Some entry → 1 ≤ count entry ≤ Z.max 1 MAX_REQUESTS.

(** The timestamps of [l] that are younger than the window at [now]: the
    [validRequests] of the client limiter. *)
Definition within `{Constants} (now : Z) (l : list Z) : list Z :=
  filter (λ timestamp, now - timestamp < STORAGE_WINDOW_MS) l.

(** The time a run of the retry wrapper spent waiting. *)
Definition total_wait (waits : list Z) : Z := foldr Z.add 0 waits.

(** ** Response helpers *)

(** Values as the helpers receive them: [None] is [undefined]. *)
Definition js_truthy (v : option json) : bool :=
  match v with
  | Some v => Json.truthy v
  | None => false
  end.

(** [typeof v === 'object'] *)
Definition typeof_object (v : json) : bool :=
  match v with
  | JNull | JArray _ | JObject _ => true
  | JBool _ | JNumber _ | JString _ => false
  end.

(** [v.name] for a property name that only an object literal can hold
    ([error], [message]): the field of that name, [undefined] on arrays and
    primitives. *)
Definition property (v : json) (name : string) : option json :=
  match v with
  | JObject fields => Json.field name fields
  | _ => None
  end.


(** [validateApiResponse(response)]: the value of
    [response && typeof response === 'object' && !response.error]. *)
Definition validateApiResponse (response : option json) : option json :=
  match response with
  | None => None
  | Some r =>
      if negb (Json.truthy r) then Some r
      else if negb (typeof_object r) then Some (JBool false)
      else Some (JBool (negb (js_truthy (property r "error"))))
  end.


(** The text holds nothing but white space. *)
Fixpoint all_whitespace (s : string) : bool :=
  match s with
  | EmptyString => true
  | String c s' => InputValidator.is_whitespace c && all_whitespace s'
  end.

(** The shapes the events of one question request can take. *)
Definition question_events `{Constants} (input : option string) : list (list event) :=
  [ [];
    [ReadBody];
    [ReadBody; ConsoleError "OpenAI API key not configured"];
    [ReadBody; ModerationsCreate input];
    [ReadBody; ModerationsCreate input;
     ResponsesCreate MODEL Question.instructions input] ].

(** The input a request carries, when its body could be read. *)
Definition input_of (request : NextRequest) : option string :=
  match json_input request with
  | Returned input => input
  | Threw _ => None
  end.

(** ** Proxy route *)

Module Proxy.

(** [ProxyConfig] of [lib/api/types]: the fields the route reads. *)
Record ProxyConfig := mkConfig {
  target : option string;
  config_headers : option (list (string * string));
  timeout : option Z
}.

(** [process.env], as far as the route reads it. *)
Record Env := mkEnv {
  USER_API_URL : option string;
  PRODUCT_API_URL : option string;
  ENABLE_CACHE : option string;
  CACHE_DURATION : option string
}.

(** [a || b] on strings that may be [undefined]. *)
Definition or_string (a : option string) (b : string) : string :=
  match a with
  | Some s => if String.eqb s "" then b else s
  | None => b
  end.

(** What [PROXY_CONFIGS[path]] evaluates to: a configuration of the
    literal, a member the literal inherits from [Object.prototype] (truthy,
    and without [target], [headers] or [timeout]), or [undefined]. *)
Inductive config_lookup :=
  | OwnConfig (config : ProxyConfig)
  | Inherited
  | Undefined.

Definition object_prototype_names : list string :=
  [ "constructor"; "__defineGetter__"; "__defineSetter__"; "hasOwnProperty";
    "__lookupGetter__"; "__lookupSetter__"; "isPrototypeOf"; "propertyIsEnumerable";
    "toString"; "valueOf"; "__proto__"; "toLocaleString" ].

Definition PROXY_CONFIGS (env : Env) (path : string) : config_lookup :=
  if String.eqb path "users" then
    OwnConfig (mkConfig
      (Some (or_string (USER_API_URL env) "https://jsonplaceholder.typicode.com/users"))
      None (Some 10000))
  else if String.eqb path "products" then
    OwnConfig (mkConfig
      (Some (or_string (PRODUCT_API_URL env) "https://dummyjson.com/products"))
      None (Some 10000))
  else if bool_decide (path ∈ object_prototype_names) then Inherited
  else Undefined.

(** The configuration the route goes on with once the lookup was truthy. *)
Definition config_of (found : config_lookup) : ProxyConfig :=
  match found with
  | OwnConfig config => config
  | Inherited | Undefined => mkConfig None None None
  end.

(** A template literal prints an [undefined] as the word. *)
Definition print (v : option string) : string := default "undefined" v.

(** [parseInt(s, 10)]: leading white space, an optional sign, then the
    longest run of decimal digits; [None] is [NaN]. *)
Definition digit_of (c : ascii) : option Z :=
  let n := nat_of_ascii c in
  if ((48 <=? n) && (n <=? 57))%nat then Some (Z.of_nat n - 48) else None.

Fixpoint parse_digits (s : string) (acc : Z) : Z :=
  match s with
  | EmptyString => acc
  | String c s' =>
      match digit_of c with
      | Some d => parse_digits s' (10 * acc + d)
      | None => acc
      end
  end.

Definition parse_unsigned (s : string) : option Z :=
  match s with
  | EmptyString => None
  | String c _ =>
      match digit_of c with
      | Some _ => Some (parse_digits s 0)
      | None => None
      end
  end.

Definition parseInt (s : string) : option Z :=
  match InputValidator.trimStart s with
  | String "-" s' => Z.opp <$> parse_unsigned s'
  | String "+" s' => parse_unsigned s'
  | s' => parse_unsigned s'
  end.

(** [a < b] where [b] may be [NaN]. *)
Definition lt_number (a : Z) (b : option Z) : bool :=
  match b with
  | Some b => a <? b
  | None => false
  end.

(** [s.includes(sub)] *)
Fixpoint includes (s sub : string) : bool :=
  String.prefix sub s ||
  match s with
  | EmptyString => false
  | String _ s' => includes s' sub
  end.

Section Defs.
(** The payload of a response: parsed JSON, text or a buffer. *)
Context {Data : Type}.

(** The [fetch] response, as far as the route reads it. *)
Record FetchResponse := mkFetched {
  fetched_status : Z;
  content_type : option string;
  read_json : outcome Data;
  read_text : outcome Data;
  read_arrayBuffer : outcome Data
}.

(** [response.ok] *)
Definition ok (response : FetchResponse) : bool :=
  (200 <=? fetched_status response) && (fetched_status response <=? 299).

(** An entry of [responseCache]; its [ttl] is [parseInt]'s result, which
    may be [NaN] ([None]). *)
Record CachedResponse := mkCached {
  cached_data : Data;
  cached_at : Z;
  cached_ttl : option Z
}.

Record ProxyRequest := mkProxyRequest {
  (** [new URL(request.url).search] *)
  search : string;
  (** [request.headers], by lower-case name *)
  request_headers : gmap string string;
  (** [await request.text()] *)
  request_text : outcome string
}.

(** The collaborators of one request. *)
Record World := mkWorld {
  env : Env;
  fetch : string → string → gmap string string → option string → outcome FetchResponse;
  now_lookup : Z;
  now_store : Z
}.

Inductive ProxyBody :=
  | ErrorJson (error : string)
  | DataJson (data : Data).

Record ProxyResponse := mkProxyResponse {
  proxy_status : Z;
  proxy_headers : list (string * string);
  proxy_body : ProxyBody
}.

(** [NextResponse.json(body, { status, headers })]: the response, or the
    error the [Response] constructor throws for a status outside 200..599
    and for a status that allows no body (101, 103, 204, 205, 304). *)
Definition null_body_status (status : Z) : bool :=
  bool_decide (status ∈ [101; 103; 204; 205; 304]).

Definition NextResponse_json (status : Z) (headers : list (string * string))
    (body : ProxyBody) : outcome ProxyResponse :=
  if negb ((200 <=? status) && (status <=? 599)) then
    Threw (ErrorInstance "RangeError" "init[status] must be in the range of 200 to 599, inclusive.")
  else if null_body_status status then
    Threw (ErrorInstance "TypeError" "Response with null body status cannot have body")
  else Returned (mkProxyResponse status headers body).

Inductive proxy_event :=
  | Fetch (url method : string) (headers : gmap string string) (body : option string)
  | LogError (error : thrown).

Record ProxyState := mkProxyState {
  responseCache : gmap string CachedResponse;
  proxy_trace : list proxy_event
}.

Definition Route (A : Type) : Type := ProxyState → outcome A * ProxyState.

Definition route_ret {A} (a : A) : Route A := λ s, (Returned a, s).

Definition route_bind {A B} (m : Route A) (k : A → Route B) : Route B :=
  λ s, match m s with
       | (Returned a, s') => k a s'
       | (Threw e, s') => (Threw e, s')
       end.

Definition route_catch {A} (m : Route A) (h : thrown → Route A) : Route A :=
  λ s, match m s with
       | (Returned a, s') => (Returned a, s')
       | (Threw e, s') => h e s'
       end.

(** An awaited value: it is there, or the [await] throws. *)
Definition await {A} (o : outcome A) : Route A := λ s, (o, s).

Definition emit (e : proxy_event) : Route unit :=
  λ s, (Returned tt, mkProxyState (responseCache s) (proxy_trace s ++ [e])).

Definition cache_get (key : string) : Route (option CachedResponse) :=
  λ s, (Returned (responseCache s !! key), s).

Definition cache_set (key : string) (entry : CachedResponse) : Route unit :=
  λ s, (Returned tt, mkProxyState (<[key := entry]> (responseCache s)) (proxy_trace s)).

(** The headers copied from the request: those of the list that are there
    and not empty. *)
Definition allowedHeaders : list string :=
  ["content-type"; "accept"; "user-agent"; "cache-control"].

Definition copy_headers (request : ProxyRequest) : gmap string string :=
  foldl (λ headers header,
           match request_headers request !! header with
           | Some value => if String.eqb value "" then headers
                           else <[header := value]> headers
           | None => headers
           end) ∅ allowedHeaders.

(** [Headers.set] keeps names in lower case. *)
Definition lower (c : ascii) : ascii :=
  let n := nat_of_ascii c in
  if ((65 <=? n) && (n <=? 90))%nat then ascii_of_nat (n + 32) else c.

Fixpoint lowercase (s : string) : string :=
  match s with
  | EmptyString => ""
  | String c s' => String (lower c) (lowercase s')
  end.

Definition add_config_headers (config : ProxyConfig) (headers : gmap string string)
  : gmap string string :=
  foldl (λ headers kv, <[lowercase (fst kv) := snd kv]> headers) headers
        (default [] (config_headers config)).

(** The name of a thrown value that is an [Error]. *)
Definition error_name (error : thrown) : option string :=
  match error with
  | ErrorInstance name _ => Some name
  | TypeErrorReadingUndefined _ => Some "TypeError"
  | OtherValue _ => None
  end.

Definition cache_enabled (w : World) : bool :=
  String.eqb (default "" (ENABLE_CACHE (env w))) "true".

Definition cacheTTL (w : World) : option Z :=
  parseInt (or_string (CACHE_DURATION (env w)) "300000").

Definition cacheKey (path : string) (request : ProxyRequest) : string :=
  path +:+ ":" +:+ search request.

(** [targetUrl] *)
Definition targetUrl (config : ProxyConfig) (request : ProxyRequest) : string :=
  print (target config) +:+ search request.

(** The payload, read as the declared content type says. *)
Definition read_body (response : FetchResponse) : outcome Data :=
  if includes (default "" (content_type response)) "application/json" then read_json response
  else if includes (default "" (content_type response)) "text/" then read_text response
  else read_arrayBuffer response.

(** [responseHeaders] *)
Definition responseHeaders (method : string) (contentType : option string)
  : list (string * string) :=
  [("Content-Type", or_string contentType "application/json");
   ("X-Proxy-Cache", if String.eqb method "GET" then "MISS" else "N/A")]
  ++ (if String.eqb method "GET" then [("Cache-Control", "public, max-age=300")] else []).

(** The body of the [try] block, from the [fetch] on. *)
Definition forward (request : ProxyRequest) (path method : string)
    (config : ProxyConfig) (w : World) (headers : gmap string string)
    (body : option string) : Route ProxyResponse :=
  route_bind (emit (Fetch (targetUrl config request) method headers body)) (λ _,
  route_bind (await (fetch w (targetUrl config request) method headers body)) (λ response,
  route_bind (await (read_body response)) (λ data,
  route_bind
    (if String.eqb method "GET" && ok response && cache_enabled w then
       cache_set (cacheKey path request) (mkCached data (now_store w) (cacheTTL w))
     else route_ret tt) (λ _,
  await (NextResponse_json (fetched_status response)
           (responseHeaders method (content_type response)) (DataJson data)))))).

(** The response of a cache hit. *)
Definition hit_response (entry : CachedResponse) : ProxyResponse :=
  mkProxyResponse 200 [("X-Cache", "HIT"); ("Cache-Control", "public, max-age=300")]
    (DataJson (cached_data entry)).

(** Whether the route answers from the cache. *)
Definition served_from_cache (request : ProxyRequest) (path method : string) (w : World)
    (s : ProxyState) : bool :=
  String.eqb method "GET" && cache_enabled w &&
  match responseCache s !! cacheKey path request with
  | Some entry => lt_number (now_lookup w - cached_at entry) (cacheTTL w)
  | None => false
  end.

(** The request body the route forwards. *)
Definition forwarded_body (request : ProxyRequest) (method : string) : outcome (option string) :=
  if negb (String.eqb method "GET") && negb (String.eqb method "HEAD")
  then match request_text request with
       | Returned text => Returned (Some text)
       | Threw e => Threw e
       end
  else Returned None.

(** The response of the [catch] block. *)
Definition failure_response (error : thrown) : ProxyResponse :=
  if bool_decide (error_name error = Some "AbortError")
  then mkProxyResponse 408 [] (ErrorJson "Request timeout")
  else mkProxyResponse 500 [] (ErrorJson "Internal server error").

Definition handleProxyRequest (request : ProxyRequest) (pathSegments : list string)
    (method : string) (w : World) : Route ProxyResponse :=
  let path := String.concat "/" pathSegments in
  match PROXY_CONFIGS (env w) path with
  | Undefined =>
      await (NextResponse_json 404 []
        (ErrorJson ("API endpoint '" +:+ path +:+ "' not configured")))
  | found =>
      let config := config_of found in
      route_catch
        (let headers := add_config_headers config (copy_headers request) in
         route_bind
           (if negb (String.eqb method "GET") && negb (String.eqb method "HEAD")
            then route_bind (await (request_text request)) (λ text, route_ret (Some text))
            else route_ret None) (λ body,
         if String.eqb method "GET" && cache_enabled w then
           route_bind (cache_get (cacheKey path request)) (λ cached,
           match cached with
           | Some entry =>
               if lt_number (now_lookup w - cached_at entry) (cacheTTL w) then
                 await (NextResponse_json 200
                   [("X-Cache", "HIT"); ("Cache-Control", "public, max-age=300")]
                   (DataJson (cached_data entry)))
               else forward request path method config w headers body
           | None => forward request path method config w headers body
           end)
         else forward request path method config w headers body))
        (λ error,
           route_bind (emit (LogError error)) (λ _,
           if bool_decide (error_name error = Some "AbortError") then
             await (NextResponse_json 408 [] (ErrorJson "Request timeout"))
           else
             await (NextResponse_json 500 [] (ErrorJson "Internal server error"))))
  end.

(** The exported handlers. *)
Definition GET request path w := handleProxyRequest request path "GET" w.
Definition POST request path w := handleProxyRequest request path "POST" w.
Definition PUT request path w := handleProxyRequest request path "PUT" w.
Definition DELETE request path w := handleProxyRequest request path "DELETE" w.
Definition PATCH request path w := handleProxyRequest request path "PATCH" w.

(** The [fetch] calls among the events a request added. *)
Definition is_fetch (e : proxy_event) : bool :=
  match e with Fetch _ _ _ _ => true | LogError _ => false end.

Definition fetches (before after : ProxyState) : list proxy_event :=
  List.filter is_fetch (drop (length (proxy_trace before)) (proxy_trace after)).
End Defs.
End Proxy.

(** A proxy request and collaborators to evaluate the route on. *)
Definition sample_proxy_request : Proxy.ProxyRequest :=
  Proxy.mkProxyRequest "?id=1" {["accept" := "application/json"; "cookie" := "sid=1"]}
    (Returned "{}").

Definition sample_fetched (status : Z) : Proxy.FetchResponse (Data := string) :=
  Proxy.mkFetched status (Some "application/json; charset=utf-8")
    (Returned "[1]") (Returned "text") (Returned "bytes").

Definition sample_world (status : Z) : Proxy.World (Data := string) :=
  Proxy.mkWorld (Proxy.mkEnv None None (Some "true") (Some "60000"))
    (λ _ _ _ _, Returned (sample_fetched status)) 1000 1005.

(** ** The [useApi] hook *)

Module UseApi.

(** [UseApiOptions]; [None] is an option the caller left out. *)
Record Options := mkOptions {
  endpoint : string;
  method : option string;
  body : option json;
  enabled : option bool;
  cache : option bool;
  cacheTTL : option Z;
  retries : option Z;
  retryDelay : option Z
}.

Definition method_of (o : Options) : string := default "GET" (method o).
Definition enabled_of (o : Options) : bool := default true (enabled o).
Definition cache_of (o : Options) : bool := default true (cache o).
Definition cacheTTL_of (o : Options) : Z := default 300000 (cacheTTL o).
Definition retries_of (o : Options) : Z := default 3 (retries o).
Definition retryDelay_of (o : Options) : Z := default 1000 (retryDelay o).

(** The [fetch] response, as far as [requestFn] reads it. *)
Record Fetched := mkFetched {
  response_ok : bool;
  response_status : Z;
  response_json : outcome json
}.

(** [requestFn], given how [fetch] answers each invocation. *)
Definition requestFn (fetch : nat → outcome Fetched) (k : nat) : outcome json :=
  match fetch k with
  | Threw error => Threw error
  | Returned response =>
      if negb (response_ok response) then
        Threw (ErrorInstance "Error"
                 ("HTTP error! status: " +:+ pretty (response_status response)))
      else response_json response
  end.

(** The state of the hook, the shared [apiCache], and what it did. *)
Record Hook := mkHook {
  data : option json;
  loading : bool;
  error : option string;
  (** [abortControllerRef.current] is set *)
  controller : bool;
  apiCache : gmap string (CacheEntry json);
  (** [fetch] invocations so far *)
  requests : nat;
  (** controllers aborted so far *)
  aborts : nat;
  (** the waits between retries so far *)
  waited : list Z
}.

Definition uses_cache (o : Options) : bool :=
  cache_of o && String.eqb (method_of o) "GET".

Definition cacheKey (o : Options) : string := generateCacheKey (endpoint o) (body o).

(** The [finally] block. *)
Definition finally (h : Hook) : Hook :=
  mkHook (data h) false (error h) false (apiCache h) (requests h) (aborts h) (waited h).

(** The [catch] block. *)
Definition catch (err : thrown) (h : Hook) : Hook :=
  if instanceofError err && bool_decide (Proxy.error_name err = Some "AbortError") then h
  else
    mkHook (data h) (loading h)
      (Some (if instanceofError err then message_of err else "An error occurred"))
      (controller h) (apiCache h) (requests h) (aborts h) (waited h).

(** What follows the cache check: the request with its retries, then the
    cache and the state. *)
Definition request (o : Options) (fetch : nat → outcome Fetched) (now_set : Z)
    (h : Hook) : Hook :=
  let run := Retry.retryRequest (requestFn fetch) (Some (retries_of o))
               (Some (retryDelay_of o)) in
  let h := mkHook (data h) (loading h) (error h) (controller h) (apiCache h)
             (requests h + Retry.calls run) (aborts h) (waited h ++ Retry.waits run) in
  match Retry.result run with
  | Threw err => catch err h
  | Returned result =>
      let cache' :=
        if uses_cache o
        then ApiCache.set (apiCache h) (cacheKey o) result (Some (cacheTTL_of o)) now_set
        else apiCache h in
      mkHook (Some result) (loading h) (error h) (controller h) cache'
        (requests h) (aborts h) (waited h)
  end.

(** [fetchData()]; [now_get] and [now_set] are the clock when the cache is
    read and when it is written. *)
Definition fetchData (o : Options) (fetch : nat → outcome Fetched) (now_get now_set : Z)
    (h : Hook) : Hook :=
  if negb (enabled_of o) then h
  else
    let h := mkHook (data h) true None true (apiCache h) (requests h)
               (if controller h then S (aborts h) else aborts h) (waited h) in
    finally
      (if uses_cache o then
         let '(cachedData, cache') := ApiCache.get (apiCache h) (cacheKey o) now_get in
         let h := mkHook (data h) (loading h) (error h) (controller h) cache'
                    (requests h) (aborts h) (waited h) in
         if js_truthy cachedData then
           mkHook cachedData false (error h) (controller h) (apiCache h)
             (requests h) (aborts h) (waited h)
         else request o fetch now_set h
       else request o fetch now_set h).

(** [mutate(newData)] *)
Definition mutate (o : Options) (newData : json) (now : Z) (h : Hook) : Hook :=
  mkHook (Some newData) (loading h) (error h) (controller h)
    (if uses_cache o
     then ApiCache.set (apiCache h) (cacheKey o) newData (Some (cacheTTL_of o)) now
     else apiCache h)
    (requests h) (aborts h) (waited h).
End UseApi.

(** An idle hook with an empty cache, and options with every default. *)
Definition idle_hook : UseApi.Hook := UseApi.mkHook None false None false ∅ 0 0 [].

Definition default_options (endpoint : string) : UseApi.Options :=
  UseApi.mkOptions endpoint None None None None None None None.

(** ** The API client *)

Module ApiClient.

(** [String(value)] for a JSON value. *)
Fixpoint js_string (v : json) : string :=
  match v with
  | JNull => "null"
  | JBool true => "true"
  | JBool false => "false"
  | JNumber n => pretty n
  | JString s => s
  | JArray items =>
      String.concat ","
        (List.map (λ item, match item with JNull => "" | _ => js_string item end) items)
  | JObject _ => "[object Object]"
  end.

(** The instance: [baseUrl], [defaultHeaders], [defaultTimeout]. *)
Record Client := mkClient {
  baseUrl : string;
  defaultHeaders : gmap string string;
  defaultTimeout : Z
}.

(** [new ApiClient(baseUrl, headers?, timeout = 10000)] *)
Definition new (baseUrl : string) (headers : option (gmap string string))
    (timeout : option Z) : Client :=
  mkClient baseUrl (default ∅ headers ∪ {["Content-Type" := "application/json"]})
    (default 10000 timeout).

(** The [options] of [request]: each field is [None] when the object does
    not have the property. *)
Record Options := mkOptions {
  method : option string;
  body : option (option string);
  headers : option (gmap string string);
  timeout : option Z;
  retries : option Z
}.

(** [Omit<RequestConfig, 'cache'>] *)
Record RequestConfig := mkRequestConfig {
  config_headers : option (gmap string string);
  config_timeout : option Z;
  config_retries : option Z
}.

(** What [fetch] is given (the signal apart). *)
Record FetchInit := mkInit {
  init_method : option string;
  init_body : option string;
  init_headers : gmap string string
}.

Record Fetched := mkFetched {
  response_ok : bool;
  response_status : Z;
  statusText : string;
  response_json : outcome json
}.

(** [options.timeout || this.defaultTimeout] *)
Definition timeout_of (c : Client) (options : Options) : Z :=
  match timeout options with
  | Some t => if t =? 0 then defaultTimeout c else t
  | None => defaultTimeout c
  end.

(** [{ headers: { ...this.defaultHeaders, ...options.headers }, ...options }]:
    the spread of [options] comes last, so a [headers] property of
    [options] replaces the merged headers. *)
Definition init_of (c : Client) (options : Options) : FetchInit :=
  let merged := default ∅ (headers options) ∪ defaultHeaders c in
  mkInit (method options)
    (default None (body options))
    (match headers options with
     | Some h => h
     | None => merged
     end).

(** [errorData.message] of the parsed error body; reading it off [null]
    throws. *)
Definition error_message (errorData : json) : outcome (option json) :=
  match errorData with
  | JNull => Threw (ErrorInstance "TypeError"
                      "Cannot read properties of null (reading 'message')")
  | _ => Returned (property errorData "message")
  end.

(** The [try] block. *)
Definition request_try (fetch : string → FetchInit → outcome Fetched)
    (url : string) (init : FetchInit) : outcome json :=
  match fetch url init with
  | Threw error => Threw error
  | Returned response =>
      if negb (response_ok response) then
        let errorData :=
          match response_json response with
          | Returned v => v
          | Threw _ => JObject []
          end in
        match error_message errorData with
        | Threw error => Threw error
        | Returned message =>
            Threw (ErrorInstance "Error"
              (if js_truthy message then js_string (default JNull message)
               else "HTTP " +:+ pretty (response_status response) +:+ ": "
                    +:+ statusText response))
        end
      else response_json response
  end.

(** [request(endpoint, options)] *)
Definition request (c : Client) (fetch : string → FetchInit → outcome Fetched)
    (endpoint : string) (options : Options) : outcome json :=
  let url := baseUrl c +:+ endpoint in
  let timeout := timeout_of c options in
  match request_try fetch url (init_of c options) with
  | Returned v => Returned v
  | Threw error =>
      if instanceofError error then
        if bool_decide (Proxy.error_name error = Some "AbortError") then
          Threw (ErrorInstance "Error"
                   ("Request timeout after " +:+ pretty timeout +:+ "ms"))
        else Threw error
      else Threw (ErrorInstance "Error" "An unexpected error occurred")
  end.

(** [{ method, body, ...config }] *)
Definition with_config (method : string) (body : option (option string))
    (config : option RequestConfig) : Options :=
  mkOptions (Some method) body
    (config ≫= config_headers) (config ≫= config_timeout) (config ≫= config_retries).

(** [data ? JSON.stringify(data) : undefined] *)
Definition body_of (data : option json) : option string :=
  if js_truthy data then Json.stringify <$> data else None.

Definition get c fetch endpoint config :=
  request c fetch endpoint (with_config "GET" None config).
Definition post c fetch endpoint data config :=
  request c fetch endpoint (with_config "POST" (Some (body_of data)) config).
Definition put c fetch endpoint data config :=
  request c fetch endpoint (with_config "PUT" (Some (body_of data)) config).
Definition delete c fetch endpoint config :=
  request c fetch endpoint (with_config "DELETE" None config).
End ApiClient.

(** ** The question widget *)

Module Welcome.
Section Defs.
Context `{Constants}.

(** The state of the component, the browser's [localStorage], and the
    bodies of the requests it sent. *)
Record Widget := mkWidget {
  input : string;
  response : option json;
  isLoading : bool;
  error : string;
  remainingRequests : Z;
  localStorage : gmap string (list Z);
  sent : list string
}.

Record Fetched := mkFetched {
  response_ok : bool;
  response_json : outcome json
}.

(** [value.name] read off a parsed body; reading it off [null] throws. *)
Definition read_property (value : json) (name : string) : outcome (option json) :=
  match value with
  | JNull => Threw (ErrorInstance "TypeError"
                      ("Cannot read properties of null (reading '" +:+ name +:+ "')"))
  | _ => Returned (property value name)
  end.

(** The [catch] block. *)
Definition catch (err : thrown) (w : Widget) : Widget :=
  mkWidget (input w) (response w) (isLoading w)
    (if instanceofError err then message_of err else "API failed")
    (remainingRequests w) (localStorage w) (sent w).

(** The [try] block. *)
Definition attempt (fetch : outcome Fetched) (now_read : Z) (w : Widget) : Widget :=
  match fetch with
  | Threw err => catch err w
  | Returned answer =>
      match response_json answer with
      | Threw err => catch err w
      | Returned parsed =>
          if negb (response_ok answer) then
            match read_property parsed "error" with
            | Threw err => catch err w
            | Returned e =>
                catch (ErrorInstance "Error"
                         (if js_truthy e then ApiClient.js_string (default JNull e)
                          else "API call failed")) w
            end
          else
            match read_property parsed "response" with
            | Threw err => catch err w
            | Returned answer_text =>
                mkWidget (input w) answer_text (isLoading w) (error w)
                  (ClientRateLimiter.getRemainingRequests (localStorage w) now_read)
                  (localStorage w) (sent w)
            end
      end
  end.

(** [handleRequest()]; [fetch] is how the request would be answered, and
    [now_check], [now_read] are the clock at the rate-limit check and when the
    remaining quota is read. *)
Definition handleRequest (fetch : outcome Fetched) (now_check now_read : Z) (w : Widget)
  : Widget :=
  if String.eqb (InputValidator.trim (input w)) "" then
    mkWidget (input w) (response w) (isLoading w) "Please enter some text to translate"
      (remainingRequests w) (localStorage w) (sent w)
  else
    let '(allowed, storage) := ClientRateLimiter.checkLimit (localStorage w) now_check in
    if negb allowed then
      mkWidget (input w) (response w) (isLoading w)
        "Rate limit exceeded. Please try again later."
        (ClientRateLimiter.getRemainingRequests storage now_read) storage (sent w)
    else
      let w := mkWidget (input w) (response w) true "" (remainingRequests w) storage
                 (sent w ++ [Json.stringify (JObject [("input", JString (input w))])]) in
      let w := attempt fetch now_read w in
      mkWidget (input w) (response w) false (error w) (remainingRequests w)
        (localStorage w) (sent w).

(** [handleReset()] *)
Definition handleReset (w : Widget) : Widget :=
  mkWidget "" (Some (JString "")) (isLoading w) "" (remainingRequests w)
    (localStorage w) (sent w).
End Defs.
End Welcome.

(** * Properties *)

(** ** The server rate limiter *)

Section ServerRateLimiterFacts.
Context `{Constants}.
Import ServerRateLimiter.
Implicit Types (store : gmap string RateLimitEntry) (ip : string) (now : Z).

Lemma checkLimit_absent store ip now :
  store !! ip = None →
  checkLimit store ip now
  = (true, <[ip := mkEntry 1 (now + STORAGE_WINDOW_MS)]> store).
Proof. intros Hn. unfold checkLimit. by rewrite Hn. Qed.

Lemma checkLimit_elapsed store ip now entry :
  store !! ip = Some entry → resetTime entry < now →
  checkLimit store ip now
  = (true, <[ip := mkEntry 1 (now + STORAGE_WINDOW_MS)]> store).
Proof.
  intros Hs Hlt. unfold checkLimit. rewrite Hs.
  destruct (Z.gtb_spec now (resetTime entry)); [done | lia].
Qed.

Lemma checkLimit_counted store ip now entry :
  store !! ip = Some entry → now ≤ resetTime entry →
  count entry < MAX_REQUESTS →
  checkLimit store ip now
  = (true, <[ip := mkEntry (count entry + 1) (resetTime entry)]> store).
Proof.
  intros Hs Hle Hc. unfold checkLimit. rewrite Hs.
  destruct (Z.gtb_spec now (resetTime entry)); [lia |].
  destruct (Z.geb_spec (count entry) MAX_REQUESTS); [lia | done].
Qed.

Lemma checkLimit_exhausted store ip now entry :
  store !! ip = Some entry → now ≤ resetTime entry →
  MAX_REQUESTS ≤ count entry →
  checkLimit store ip now = (false, store).
Proof.
  intros Hs Hle Hc. unfold checkLimit. rewrite Hs.
  destruct (Z.gtb_spec now (resetTime entry)); [lia |].
  destruct (Z.geb_spec (count entry) MAX_REQUESTS); [done | lia].
Qed.

(** A denied call does not touch the store. *)
Lemma checkLimit_denied store ip now :
  (checkLimit store ip now).1 = false → (checkLimit store ip now).2 = store.
Proof.
  unfold checkLimit. destruct (store !! ip) as [entry|]; [|done].
  destruct (now >? resetTime entry); [done |].
  by destruct (count entry >=? MAX_REQUESTS).
Qed.

(** Calls of other callers leave a caller's entry alone. *)
Lemma checkLimit_other store ip ip' now :
  ip' ≠ ip → (checkLimit store ip' now).2 !! ip = store !! ip.
Proof.
  intros Hne. unfold checkLimit. destruct (store !! ip') as [entry|].
  - destruct (now >? resetTime entry); simpl; [by rewrite lookup_insert_ne |].
    destruct (count entry >=? MAX_REQUESTS); simpl; [done |].
    by rewrite lookup_insert_ne.
  - simpl. by rewrite lookup_insert_ne.
Qed.

(** Inside the window every call of the caller is allowed while the
    count stays within the quota, and the count records the calls. *)
Lemma run_inside_window times : ∀ store ip entry,
  store !! ip = Some entry →
  Forall (λ now, now ≤ resetTime entry) times →
  count entry + Z.of_nat (length times) ≤ MAX_REQUESTS →
  (run store ip times).1 = replicate (length times) true
  ∧ (run store ip times).2 !! ip
    = Some (mkEntry (count entry + Z.of_nat (length times)) (resetTime entry)).
Proof.
  induction times as [|now rest IH]; intros store ip entry Hs Hall Hc.
  - simpl. split; [done |]. rewrite Hs. destruct entry; simpl. f_equal. f_equal. lia.
  - apply Forall_cons in Hall as [Hnow Hrest]. simpl in Hc.
    cbn [run]. rewrite (checkLimit_counted _ _ _ entry) by (done || lia).
    specialize (IH (<[ip := mkEntry (count entry + 1) (resetTime entry)]> store)
                   ip (mkEntry (count entry + 1) (resetTime entry))).
    destruct (run _ ip rest) as [oks store''] eqn:Hrun.
    destruct IH as [IH1 IH2]; [by rewrite lookup_insert_eq | done | simpl; lia |].
    simpl in *. split; [by rewrite IH1 |].
    rewrite IH2. f_equal. f_equal. lia.
Qed.

(** The first call opens the window; with the others inside it, a number
    of calls within the quota is allowed in full and counted. *)
Lemma run_from_absent store ip t1 times :
  store !! ip = None →
  Forall (λ now, now ≤ t1 + STORAGE_WINDOW_MS) times →
  1 + Z.of_nat (length times) ≤ MAX_REQUESTS →
  (run store ip (t1 :: times)).1 = replicate (S (length times)) true
  ∧ (run store ip (t1 :: times)).2 !! ip
    = Some (mkEntry (1 + Z.of_nat (length times)) (t1 + STORAGE_WINDOW_MS)).
Proof.
  intros Hnone Hall Hlen.
  cbn [run]. rewrite checkLimit_absent by done.
  pose proof (run_inside_window times
    (<[ip := mkEntry 1 (t1 + STORAGE_WINDOW_MS)]> store) ip
    (mkEntry 1 (t1 + STORAGE_WINDOW_MS))) as Hrun.
  destruct (run _ ip times) as [oks after] eqn:E. simpl in Hrun.
  destruct Hrun as [H1 H2]; [by rewrite lookup_insert_eq | done | lia |].
  simpl. by rewrite H1.
Qed.

(** ** C1 *)

(** C1. From a store with no entry for [ip], [MAX_REQUESTS] calls of
    [checkLimit] inside one window (the first at [t1], the others no later
    than the [resetTime] it sets) are all allowed, the next call inside
    that window is denied, and the denied call leaves the store, hence the
    entry's [count] and [resetTime], as it was.  The quota is taken to be
    at least one. *)
Theorem quota_allowed_then_denied store ip t1 times t_next :
  1 ≤ MAX_REQUESTS →
  store !! ip = None →
  length (t1 :: times) = Z.to_nat MAX_REQUESTS →
  Forall (λ now, now ≤ t1 + STORAGE_WINDOW_MS) (times ++ [t_next]) →
  let after := (run store ip (t1 :: times)).2 in
  (run store ip (t1 :: times)).1 = replicate (Z.to_nat MAX_REQUESTS) true
  ∧ after !! ip = Some (mkEntry MAX_REQUESTS (t1 + STORAGE_WINDOW_MS))
  ∧ checkLimit after ip t_next = (false, after).
Proof.
  intros Hmax Hnone Hlen Hall after. subst after.
  apply Forall_app in Hall as [Hall Hnext]. rewrite Forall_singleton in Hnext.
  simpl in Hlen.
  destruct (run_from_absent store ip t1 times) as [Hoks Hentry]; [done | done | lia |].
  replace (1 + Z.of_nat (length times)) with MAX_REQUESTS in Hentry by lia.
  split; [by rewrite Hoks, Hlen |]. split; [done |].
  apply (checkLimit_exhausted _ _ _ _ Hentry); simpl; lia.
Qed.
End ServerRateLimiterFacts.

Lemma quota_allowed_then_denied_witness :
  let after := (ServerRateLimiter.run (H := sample_constants) ∅ "10.0.0.1" [100; 103]).2 in
  (ServerRateLimiter.run (H := sample_constants) ∅ "10.0.0.1" [100; 103]).1
  = [true; true]
  ∧ after !! "10.0.0.1" = Some (mkEntry 2 110)
  ∧ ServerRateLimiter.checkLimit (H := sample_constants) after "10.0.0.1" 110
    = (false, after).
Proof.
  apply (quota_allowed_then_denied (H := sample_constants) ∅ "10.0.0.1" 100 [103] 110).
  - simpl. lia.
  - reflexivity.
  - reflexivity.
  - repeat constructor; simpl; lia.
Defined.

(** ** Expiry of an entry, and the remaining quota *)

Section WindowFacts.
Context `{Constants}.
Import ServerRateLimiter.
Implicit Types (store : gmap string RateLimitEntry) (ip : string) (now : Z).

Lemma getRemaining_absent store ip now :
  store !! ip = None → getRemaining store ip now = MAX_REQUESTS.
Proof. intros Hn. unfold getRemaining. by rewrite Hn. Qed.

Lemma getRemaining_elapsed store ip now entry :
  store !! ip = Some entry → resetTime entry < now →
  getRemaining store ip now = MAX_REQUESTS.
Proof.
  intros Hs Hlt. unfold getRemaining. rewrite Hs.
  destruct (Z.gtb_spec now (resetTime entry)); [done | lia].
Qed.

Lemma getRemaining_live store ip now entry :
  store !! ip = Some entry → now ≤ resetTime entry →
  getRemaining store ip now = Z.max 0 (MAX_REQUESTS - count entry).
Proof.
  intros Hs Hle. unfold getRemaining. rewrite Hs.
  destruct (Z.gtb_spec now (resetTime entry)); [lia | done].
Qed.

(** One call inside the window keeps the window and never lowers the
    count. *)
Lemma checkLimit_keeps_window store ip entry ip' now :
  store !! ip = Some entry →
  (ip' = ip → now ≤ resetTime entry) →
  ∃ entry', (checkLimit store ip' now).2 !! ip = Some entry'
            ∧ resetTime entry' = resetTime entry
            ∧ count entry ≤ count entry'.
Proof.
  intros Hs Hw. destruct (decide (ip' = ip)) as [->|Hne].
  - specialize (Hw eq_refl).
    destruct (Z.lt_ge_cases (count entry) MAX_REQUESTS).
    + rewrite (checkLimit_counted _ _ _ entry) by done. simpl.
      rewrite lookup_insert_eq. eexists; split; [done |]. simpl. lia.
    + rewrite (checkLimit_exhausted _ _ _ entry) by done. simpl.
      exists entry. split; [done | lia].
  - rewrite checkLimit_other by done. exists entry. split; [done | lia].
Qed.

Lemma run_calls_keeps_window calls : ∀ store ip entry,
  store !! ip = Some entry →
  Forall (λ call, call.1 = ip → call.2 ≤ resetTime entry) calls →
  ∃ entry', run_calls store calls !! ip = Some entry'
            ∧ resetTime entry' = resetTime entry
            ∧ count entry ≤ count entry'.
Proof.
  induction calls as [|[ip' now] rest IH]; intros store ip entry Hs Hall.
  - exists entry. simpl. split; [done | lia].
  - apply Forall_cons in Hall as [Hcall Hrest]. simpl in Hcall.
    destruct (checkLimit_keeps_window store ip entry ip' now Hs Hcall)
      as (e1 & Hs1 & Hr1 & Hc1).
    destruct (IH _ ip e1 Hs1) as (e2 & Hs2 & Hr2 & Hc2).
    { by rewrite Hr1. }
    exists e2. simpl. split; [done |]. split; lia.
Qed.

Lemma run_calls_app calls1 : ∀ store calls2,
  run_calls store (calls1 ++ calls2) = run_calls (run_calls store calls1) calls2.
Proof.
  induction calls1 as [|[ip now] rest IH]; intros store calls2; [done |].
  simpl. apply IH.
Qed.

(** ** C6 *)

(** C6 (as the code has it).  An entry is treated as expired exactly when
    [now > resetTime]: then [checkLimit] replaces it with a fresh entry of
    count 1 and allows the request, and [getRemaining] is the full quota.
    At [now <= resetTime], the instant [now = resetTime] included, the
    entry is live: [checkLimit] keeps its [resetTime] and [getRemaining]
    is computed from its count. *)
Theorem expired_iff_after_resetTime store ip entry now :
  store !! ip = Some entry →
  (resetTime entry < now →
     checkLimit store ip now
     = (true, <[ip := mkEntry 1 (now + STORAGE_WINDOW_MS)]> store)
     ∧ getRemaining store ip now = MAX_REQUESTS)
  ∧ (now ≤ resetTime entry →
     (∃ entry', (checkLimit store ip now).2 !! ip = Some entry'
                ∧ resetTime entry' = resetTime entry
                ∧ count entry' = (if (checkLimit store ip now).1
                                  then count entry + 1 else count entry))
     ∧ (checkLimit store ip now).1 = bool_decide (count entry < MAX_REQUESTS)
     ∧ getRemaining store ip now = Z.max 0 (MAX_REQUESTS - count entry)).
Proof.
  intros Hs. split.
  - intros Hlt. split; [by apply (checkLimit_elapsed _ _ _ entry) |].
    by apply (getRemaining_elapsed _ _ _ entry).
  - intros Hle. rewrite (getRemaining_live _ _ _ entry) by done.
    destruct (Z.lt_ge_cases (count entry) MAX_REQUESTS).
    + rewrite (checkLimit_counted _ _ _ entry) by done. simpl.
      rewrite lookup_insert_eq, bool_decide_eq_true_2 by done.
      split; [|done]. by eexists.
    + rewrite (checkLimit_exhausted _ _ _ entry) by done. simpl.
      rewrite bool_decide_eq_false_2 by lia.
      split; [|done]. by exists entry.
Qed.

(** ** C7 *)

(** C7. [getRemaining] is [max(0, MAX_REQUESTS - count)] for a live entry
    and the full quota when there is no entry or the window has elapsed.
    Within the window of a live entry, over any sequence of [checkLimit]
    calls (of this or other callers), a later reading of [getRemaining] is
    never above an earlier one, and a reading after the window has elapsed
    is the full quota again. *)
Theorem getRemaining_window store ip entry calls1 calls2 t t' t_after :
  store !! ip = Some entry →
  Forall (λ call, call.1 = ip → call.2 ≤ resetTime entry) (calls1 ++ calls2) →
  t ≤ resetTime entry → t' ≤ resetTime entry → resetTime entry < t_after →
  getRemaining store ip t = Z.max 0 (MAX_REQUESTS - count entry)
  ∧ (∀ store0, store0 !! ip = None → getRemaining store0 ip t = MAX_REQUESTS)
  ∧ getRemaining store ip t_after = MAX_REQUESTS
  ∧ getRemaining (run_calls store (calls1 ++ calls2)) ip t'
    ≤ getRemaining (run_calls store calls1) ip t
  ∧ getRemaining (run_calls store (calls1 ++ calls2)) ip t_after = MAX_REQUESTS.
Proof.
  intros Hs Hall Ht Ht' Hafter.
  pose proof Hall as Hall'. apply Forall_app in Hall' as [Hall1 Hall2].
  destruct (run_calls_keeps_window calls1 store ip entry Hs Hall1)
    as (e1 & Hs1 & Hr1 & Hc1).
  destruct (run_calls_keeps_window calls2 (run_calls store calls1) ip e1 Hs1)
    as (e2 & Hs2 & Hr2 & Hc2).
  { by rewrite Hr1. }
  rewrite <- run_calls_app in Hs2.
  split; [by apply getRemaining_live |].
  split; [by intros; apply getRemaining_absent |].
  split; [by apply (getRemaining_elapsed _ _ _ entry) |].
  split.
  - rewrite (getRemaining_live _ _ _ e2), (getRemaining_live _ _ _ e1) by (done || lia).
    lia.
  - apply (getRemaining_elapsed _ _ _ e2); [done | lia].
Qed.
End WindowFacts.

(** C6 as stated fails at the instant [now = resetTime]: an exhausted entry
    is not replaced, the call is denied and nothing of the quota remains. *)
Lemma expired_at_resetTime_counterexample :
  let store : gmap string RateLimitEntry := {["10.0.0.1" := mkEntry 2 10]} in
  resetTime (mkEntry 2 10) ≤ 10
  ∧ ServerRateLimiter.checkLimit (H := sample_constants) store "10.0.0.1" 10
    = (false, store)
  ∧ ServerRateLimiter.getRemaining (H := sample_constants) store "10.0.0.1" 10 = 0
  ∧ ¬ (ServerRateLimiter.checkLimit (H := sample_constants) store "10.0.0.1" 10
       = (true, <["10.0.0.1" := mkEntry 1 (10 + 10)]> store)
       ∧ ServerRateLimiter.getRemaining (H := sample_constants) store "10.0.0.1" 10
         = MAX_REQUESTS (Constants := sample_constants)).
Proof.
  simpl. split; [lia |]. split; [reflexivity |]. split; [reflexivity |].
  intros [_ Hrem]. vm_compute in Hrem. discriminate Hrem.
Qed.

Lemma expired_iff_after_resetTime_witness :
  let store : gmap string RateLimitEntry := {["10.0.0.1" := mkEntry 1 10]} in
  ServerRateLimiter.checkLimit (H := sample_constants) store "10.0.0.1" 11
  = (true, <["10.0.0.1" := mkEntry 1 21]> store)
  ∧ ServerRateLimiter.getRemaining (H := sample_constants) store "10.0.0.1" 11 = 2.
Proof.
  intros store.
  apply (proj1 (expired_iff_after_resetTime (H := sample_constants)
                  store "10.0.0.1" (mkEntry 1 10) 11 eq_refl)).
  simpl. lia.
Defined.

Lemma getRemaining_window_witness :
  let store : gmap string RateLimitEntry := {["10.0.0.1" := mkEntry 1 10]} in
  let calls1 := [("10.0.0.1", 3)] in
  let calls2 := [("10.0.0.2", 50); ("10.0.0.1", 10)] in
  ServerRateLimiter.getRemaining (H := sample_constants) store "10.0.0.1" 2 = 1
  ∧ ServerRateLimiter.getRemaining (H := sample_constants)
      (ServerRateLimiter.run_calls (H := sample_constants) store (calls1 ++ calls2))
      "10.0.0.1" 10
    ≤ ServerRateLimiter.getRemaining (H := sample_constants)
        (ServerRateLimiter.run_calls (H := sample_constants) store calls1) "10.0.0.1" 2
  ∧ ServerRateLimiter.getRemaining (H := sample_constants)
      (ServerRateLimiter.run_calls (H := sample_constants) store (calls1 ++ calls2))
      "10.0.0.1" 11 = 2.
Proof.
  intros store calls1 calls2.
  destruct (getRemaining_window (H := sample_constants) store "10.0.0.1"
              (mkEntry 1 10) calls1 calls2 2 10 11) as (H1 & _ & _ & H4 & H5).
  - reflexivity.
  - repeat constructor; simpl; intros; try lia; discriminate.
  - simpl; lia.
  - simpl; lia.
  - simpl; lia.
  - exact (conj H1 (conj H4 H5)).
Defined.

(** ** The two limiters compared *)

Section LimitersCompared.
Context `{Constants}.

Lemma server_answers_live times : ∀ (store : gmap string RateLimitEntry) ip entry,
  store !! ip = Some entry →
  Forall (λ now, now ≤ resetTime entry) times →
  (ServerRateLimiter.run store ip times).1
  = quota_answers (count entry) (length times).
Proof.
  induction times as [|now rest IH]; intros store ip entry Hs Hall; [done |].
  apply Forall_cons in Hall as [Hnow Hrest]. cbn [ServerRateLimiter.run length quota_answers].
  case_bool_decide as Hc.
  - rewrite (checkLimit_counted _ _ _ entry) by done.
    specialize (IH (<[ip := mkEntry (count entry + 1) (resetTime entry)]> store)
                   ip (mkEntry (count entry + 1) (resetTime entry))).
    destruct (ServerRateLimiter.run _ ip rest) as [oks s'].
    simpl in *. f_equal. apply IH; [by rewrite lookup_insert_eq | done].
  - rewrite (checkLimit_exhausted _ _ _ entry) by (done || lia).
    specialize (IH store ip entry Hs Hrest).
    destruct (ServerRateLimiter.run _ ip rest) as [oks s'].
    simpl in *. by f_equal.
Qed.

Lemma filter_keeps_all {A} (P : A → Prop) `{∀ x, Decision (P x)} (l : list A) :
  Forall P l → filter P l = l.
Proof.
  induction 1 as [|x l Hx Hl IH]; [done |].
  rewrite filter_cons_True by done. by f_equal.
Qed.

Lemma requests_of_stored (localStorage : gmap string (list Z)) l :
  ClientRateLimiter.requests_of (<[ClientRateLimiter.storage_key := l]> localStorage) = l.
Proof. unfold ClientRateLimiter.requests_of. by rewrite lookup_insert_eq. Qed.

Lemma client_answers_live t1 times : ∀ (localStorage : gmap string (list Z)),
  Forall (λ ts, t1 ≤ ts) (ClientRateLimiter.requests_of localStorage) →
  Forall (λ now, t1 ≤ now < t1 + STORAGE_WINDOW_MS) times →
  (ClientRateLimiter.run localStorage times).1
  = quota_answers (Z.of_nat (length (ClientRateLimiter.requests_of localStorage)))
                  (length times).
Proof.
  induction times as [|now rest IH]; intros ls Hold Hall; [done |].
  apply Forall_cons in Hall as [Hnow Hrest].
  cbn [ClientRateLimiter.run length quota_answers].
  unfold ClientRateLimiter.checkLimit.
  rewrite filter_keeps_all by (eapply Forall_impl; [exact Hold | simpl; intros; lia]).
  destruct (Z.geb_spec (Z.of_nat (length (ClientRateLimiter.requests_of ls))) MAX_REQUESTS).
  - rewrite bool_decide_eq_false_2 by lia.
    specialize (IH ls Hold Hrest).
    destruct (ClientRateLimiter.run ls rest) as [oks ls']. simpl in *. by f_equal.
  - rewrite bool_decide_eq_true_2 by lia.
    specialize (IH (<[ClientRateLimiter.storage_key :=
                        ClientRateLimiter.requests_of ls ++ [now]]> ls)).
    destruct (ClientRateLimiter.run _ rest) as [oks ls'].
    rewrite !requests_of_stored, length_app in IH. simpl in IH.
    simpl. f_equal. rewrite IH; [f_equal; lia | | done].
    apply Forall_app. split; [done |]. apply Forall_singleton. lia.
Qed.

(** ** C2 *)

(** C2 (as the code has it).  With a quota of at least one and both stores
    empty for the caller, the two limiters give the same answers on every
    sequence of checks whose timestamps all lie in the first window
    [t1 <= t < t1 + STORAGE_WINDOW_MS], [t1] being the first check.  (On
    longer sequences they can differ: the server counts in a fixed window
    opened by the first request, the client counts the stored timestamps
    younger than the window.) *)
Theorem limiters_agree_inside_first_window
    (store : gmap string RateLimitEntry) ip
    (localStorage : gmap string (list Z)) t1 times :
  1 ≤ MAX_REQUESTS →
  store !! ip = None →
  ClientRateLimiter.requests_of localStorage = [] →
  Forall (λ now, t1 ≤ now < t1 + STORAGE_WINDOW_MS) (t1 :: times) →
  (ServerRateLimiter.run store ip (t1 :: times)).1
  = (ClientRateLimiter.run localStorage (t1 :: times)).1.
Proof.
  intros Hmax Hnone Hempty Hall.
  rewrite (client_answers_live t1 (t1 :: times)) by (by rewrite ?Hempty).
  rewrite Hempty. cbn [ServerRateLimiter.run length quota_answers].
  rewrite checkLimit_absent by done.
  rewrite bool_decide_eq_true_2 by (simpl; lia).
  apply Forall_cons in Hall as [Ht1 Hall].
  pose proof (server_answers_live times
    (<[ip := mkEntry 1 (t1 + STORAGE_WINDOW_MS)]> store) ip
    (mkEntry 1 (t1 + STORAGE_WINDOW_MS))) as Hsrv.
  destruct (ServerRateLimiter.run _ ip times) as [oks s'].
  simpl in *. f_equal. apply Hsrv; [by rewrite lookup_insert_eq |].
  eapply Forall_impl; [exact Hall | simpl; intros; lia].
Qed.
End LimitersCompared.

(** C2 as stated fails: with a quota of 2 and a window of 10, on checks at
    0, 9, 11 and 12 the server allows the fourth (its window restarted at 11)
    and the client denies it (9 and 11 are both younger than 10). *)
Lemma limiters_differ_counterexample :
  (ServerRateLimiter.run (H := sample_constants) ∅ "10.0.0.1" [0; 9; 11; 12]).1
  = [true; true; true; true]
  ∧ (ClientRateLimiter.run (H := sample_constants) ∅ [0; 9; 11; 12]).1
    = [true; true; true; false]
  ∧ (ServerRateLimiter.run (H := sample_constants) ∅ "10.0.0.1" [0; 9; 11; 12]).1
    ≠ (ClientRateLimiter.run (H := sample_constants) ∅ [0; 9; 11; 12]).1.
Proof.
  split; [vm_compute; reflexivity |]. split; [vm_compute; reflexivity |].
  vm_compute. discriminate.
Qed.

Lemma limiters_agree_inside_first_window_witness :
  (ServerRateLimiter.run (H := sample_constants) ∅ "10.0.0.1" [0; 9; 3; 9]).1
  = (ClientRateLimiter.run (H := sample_constants) ∅ [0; 9; 3; 9]).1.
Proof.
  apply (limiters_agree_inside_first_window (H := sample_constants)
           ∅ "10.0.0.1" ∅ 0 [9; 3; 9]).
  - simpl. lia.
  - reflexivity.
  - reflexivity.
  - repeat constructor; simpl; lia.
Defined.

(** ** The TTL cache *)

Section ApiCacheFacts.
Context {A : Type}.
Implicit Types (cache : gmap string (CacheEntry A)) (key : string) (item : CacheEntry A).

Lemma set_lookup cache key (d : A) ttl_arg now :
  ApiCache.set cache key d ttl_arg now !! key
  = Some (mkCacheEntry d now (default ApiCache.default_ttl ttl_arg)).
Proof. unfold ApiCache.set. by rewrite lookup_insert_eq. Qed.

Lemma get_absent cache key now :
  cache !! key = None → ApiCache.get cache key now = (None, cache).
Proof. intros Hn. unfold ApiCache.get. by rewrite Hn. Qed.

Lemma get_fresh cache key item now :
  cache !! key = Some item → now - timestamp item ≤ ttl item →
  ApiCache.get cache key now = (Some (data item), cache).
Proof.
  intros Hs Hle. unfold ApiCache.get. rewrite Hs.
  destruct (Z.gtb_spec (now - timestamp item) (ttl item)); [lia | done].
Qed.

Lemma get_stale cache key item now :
  cache !! key = Some item → ttl item < now - timestamp item →
  ApiCache.get cache key now = (None, delete key cache).
Proof.
  intros Hs Hlt. unfold ApiCache.get. rewrite Hs.
  destruct (Z.gtb_spec (now - timestamp item) (ttl item)); [done | lia].
Qed.

(** Without an entry, no number of reads brings one back. *)
Lemma gets_absent times : ∀ cache key,
  cache !! key = None →
  ApiCache.gets cache key times = (replicate (length times) None, cache).
Proof.
  induction times as [|now rest IH]; intros cache key Hn; [done |].
  cbn [ApiCache.gets]. rewrite get_absent by done. by rewrite IH.
Qed.

(** ** C3 *)

(** C3. After [set(k, v, ttl)] with a [ttl] that is no negative duration,
    [get(k)] at the same instant returns [v], as does any [get] of an
    entry whose age does not exceed its [ttl].  A [get] of an entry whose
    age exceeds its [ttl] deletes the entry and returns absent, and so
    does every later [get] with no [set] in between.  A [get] of a key
    that has no entry returns absent. *)
Theorem ttl_cache_contract cache0 cache key (v : A) ttl_v t_set item
    now_fresh now_stale later :
  0 ≤ ttl_v →
  cache !! key = Some item →
  now_fresh - timestamp item ≤ ttl item →
  ttl item < now_stale - timestamp item →
  ApiCache.get (ApiCache.set cache0 key v (Some ttl_v) t_set) key t_set
  = (Some v, ApiCache.set cache0 key v (Some ttl_v) t_set)
  ∧ ApiCache.get cache key now_fresh = (Some (data item), cache)
  ∧ ApiCache.get cache key now_stale = (None, delete key cache)
  ∧ ApiCache.gets cache key (now_stale :: later)
    = (replicate (S (length later)) None, delete key cache)
  ∧ (∀ cache1 now, cache1 !! key = None →
       ApiCache.get cache1 key now = (None, cache1)).
Proof.
  intros Httl Hs Hfresh Hstale.
  split.
  { rewrite (get_fresh _ _ (mkCacheEntry v t_set ttl_v)); [done | apply set_lookup |].
    simpl. lia. }
  split; [by apply (get_fresh _ _ item) |].
  split; [by apply (get_stale _ _ item) |].
  split; [| by intros; apply get_absent].
  cbn [ApiCache.gets]. rewrite (get_stale _ _ item) by done.
  rewrite gets_absent by apply lookup_delete_eq. done.
Qed.
End ApiCacheFacts.

Lemma ttl_cache_contract_witness :
  let cache : gmap string (CacheEntry string) := ApiCache.set ∅ "users:" "alice" (Some 300) 1000 in
  ApiCache.get cache "users:" 1000 = (Some "alice", cache)
  ∧ ApiCache.get cache "users:" 1300 = (Some "alice", cache)
  ∧ ApiCache.get cache "users:" 1301 = (None, delete "users:" cache)
  ∧ ApiCache.gets cache "users:" [1301; 1302; 1000]
    = ([None; None; None], delete "users:" cache).
Proof.
  intros cache.
  destruct (ttl_cache_contract (A := string) ∅ cache "users:" "alice" 300 1000
              (mkCacheEntry "alice" 1000 300) 1300 1301 [1302; 1000])
    as (H1 & H2 & H3 & H4 & _).
  - lia.
  - reflexivity.
  - simpl. lia.
  - simpl. lia.
  - exact (conj H1 (conj H2 (conj H3 H4))).
Defined.

(** ** The retry wrapper *)

Section RetryFacts.
Context {T : Type}.
Import Retry.
Implicit Types (requestFn : nat → outcome T) (maxRetries delay attempt : Z).

Lemma waits_from_S delay attempt j :
  waits_from delay attempt (S j)
  = delay * 2 ^ (attempt - 1) :: waits_from delay (attempt + 1) j.
Proof.
  unfold waits_from. cbn [seq fmap list_fmap]. f_equal.
  - by rewrite Z.add_0_r.
  - rewrite <- fmap_S_seq, <- list_fmap_compose.
    apply list_fmap_ext. intros _ i _. simpl. f_equal. f_equal. lia.
Qed.

Lemma waits_from_one delay j : waits_from delay 1 j = backoff delay j.
Proof.
  unfold waits_from, backoff. apply list_fmap_ext. intros _ i _.
  simpl. do 2 f_equal; lia.
Qed.

(** [iterations] stands for the loop condition: with [attempt] and
    [iterations] related as [retryRequest] starts them and [loop] steps
    them, [attempt <= maxRetries] holds exactly while iterations remain. *)
Lemma loop_condition maxRetries attempt (iterations : nat) :
  attempt + Z.of_nat iterations = maxRetries + 1 →
  (attempt <=? maxRetries) = negb (iterations =? 0)%nat.
Proof.
  intros Hinv. destruct iterations as [|iterations]; simpl.
  - apply Z.leb_gt. lia.
  - apply Z.leb_le. lia.
Qed.

Lemma loop_condition_start maxRetries :
  0 ≤ maxRetries → 1 + Z.of_nat (Z.to_nat maxRetries) = maxRetries + 1.
Proof. lia. Qed.

(** The loop invokes the operation until an invocation settles the run:
    one that returns, or the failure of the last attempt. *)
Lemma loop_settles requestFn maxRetries delay j :
  ∀ iterations attempt lastError ncalls waited,
  attempt + Z.of_nat iterations = maxRetries + 1 →
  (j < iterations)%nat →
  (∀ k, (k < j)%nat → threw (requestFn (ncalls + k)%nat)) →
  (threw (requestFn (ncalls + j)%nat) → S j = iterations) →
  loop requestFn maxRetries delay iterations attempt lastError ncalls waited
  = mkRun (settle (requestFn (ncalls + j)%nat)) (S (ncalls + j))
          (waited ++ waits_from delay attempt j).
Proof.
  induction j as [|j IH]; intros iterations attempt lastError ncalls waited
    Hinv Hlt Hfail Hlast.
  - destruct iterations as [|iterations]; [lia |]. cbn [loop].
    rewrite Nat.add_0_r in *. unfold waits_from. simpl. rewrite app_nil_r.
    destruct (requestFn ncalls) as [v|error] eqn:Hr; [done |].
    assert (1 = S iterations)%nat as Hone by (apply Hlast; by eexists).
    rewrite (proj2 (Z.eqb_eq attempt maxRetries)) by lia. done.
  - destruct iterations as [|iterations]; [lia |]. cbn [loop].
    destruct (Hfail 0%nat) as [error Herr]; [lia |].
    rewrite Nat.add_0_r in Herr. rewrite Herr.
    rewrite (proj2 (Z.eqb_neq attempt maxRetries)) by lia.
    rewrite (IH iterations (attempt + 1)).
    + rewrite waits_from_S, <- app_assoc. simpl.
      by rewrite Nat.add_succ_r.
    + lia.
    + lia.
    + intros k Hk. replace (S ncalls + k)%nat with (ncalls + S k)%nat by lia.
      apply Hfail. lia.
    + replace (S ncalls + j)%nat with (ncalls + S j)%nat by lia.
      intros Ht. specialize (Hlast Ht). lia.
Qed.

Lemma loop_calls requestFn maxRetries delay iterations :
  ∀ attempt lastError ncalls waited,
  (ncalls + (if iterations is O then 0 else 1)
   ≤ calls (loop requestFn maxRetries delay iterations attempt lastError ncalls waited))%nat.
Proof.
  induction iterations as [|iterations IH]; intros attempt lastError ncalls waited.
  - simpl. lia.
  - cbn [loop]. destruct (requestFn ncalls) as [v|err]; [simpl; lia |].
    destruct (attempt =? maxRetries); [simpl; lia |].
    specialize (IH (attempt + 1) (Some (toError err)) (S ncalls)
                   (waited ++ [delay * 2 ^ (attempt - 1)])).
    destruct iterations; lia.
Qed.

(** ** C4 *)

(** C4. An operation that fails on its first [m] invocations and returns
    [v] on the next, with [maxRetries >= m + 1], makes [retryRequest]
    return [v].  An operation that fails on all [maxRetries] invocations
    makes it throw the error of the last one (made an [Error] when it was
    none) and no value.  The waits are [delay * 2^(i-1)] before retry
    [i + 1], that is [delay, 2 delay, 4 delay, ...], one per failed attempt
    but the last. *)
Theorem retry_contract (succeeding failing : nat → outcome T)
    maxRetries delay (m : nat) (v : T) (last : thrown) :
  (S m ≤ Z.to_nat maxRetries)%nat →
  (∀ k, (k < m)%nat → threw (succeeding k)) →
  succeeding m = Returned v →
  (∀ k, (k < Z.to_nat maxRetries)%nat → threw (failing k)) →
  failing (Z.to_nat maxRetries - 1)%nat = Threw last →
  retryRequest succeeding (Some maxRetries) (Some delay)
  = mkRun (Returned v) (S m) (backoff delay m)
  ∧ retryRequest failing (Some maxRetries) (Some delay)
    = mkRun (Threw (toError last)) (Z.to_nat maxRetries)
            (backoff delay (Z.to_nat maxRetries - 1))
  ∧ (instanceofError last = true → toError last = last)
  ∧ (∀ n i : nat, (i < n)%nat → backoff delay n !! i = Some (delay * 2 ^ Z.of_nat i))
  ∧ length (backoff delay (Z.to_nat maxRetries - 1)) = (Z.to_nat maxRetries - 1)%nat.
Proof.
  intros Hm Hfails Hok Hall Hlast. unfold retryRequest. simpl.
  split; [| split; [| split; [| split]]].
  - rewrite (loop_settles succeeding maxRetries delay m); simpl.
    + by rewrite Hok, waits_from_one.
    + lia.
    + lia.
    + done.
    + rewrite Hok. intros [e He]. discriminate He.
  - rewrite (loop_settles failing maxRetries delay (Z.to_nat maxRetries - 1)); simpl.
    + rewrite Hlast, waits_from_one. simpl. f_equal. lia.
    + lia.
    + lia.
    + intros k Hk. apply Hall. lia.
    + intros _. lia.
  - unfold toError. by intros ->.
  - intros n i Hi. unfold backoff. rewrite list_lookup_fmap.
    by rewrite lookup_seq_lt.
  - unfold backoff. by rewrite length_fmap, length_seq.
Qed.

(** ** C10 *)

(** C10. With [maxRetries <= 0] the loop body never runs: the operation
    is not invoked, nothing is waited for, and the trailing [throw] reads
    [message] of the [lastError] that was never assigned, so the call
    fails with the runtime's error for dereferencing [undefined].  The
    operation is invoked at least once exactly when [maxRetries >= 1]. *)
Theorem retry_without_attempts requestFn maxRetries (delay_arg : option Z) :
  maxRetries ≤ 0 →
  retryRequest requestFn (Some maxRetries) delay_arg
  = mkRun (Threw (TypeErrorReadingUndefined "message")) 0 []
  ∧ (∀ budget, (1 ≤ calls (retryRequest requestFn (Some budget) delay_arg))%nat
               ↔ 1 ≤ budget).
Proof.
  intros Hle. split.
  - unfold retryRequest. simpl. by replace (Z.to_nat maxRetries) with 0%nat by lia.
  - intros budget. unfold retryRequest. simpl. split.
    + intros Hc. destruct (Z.to_nat budget) eqn:Hb; [simpl in Hc; lia | lia].
    + intros Hb.
      pose proof (loop_calls requestFn budget (default 1000 delay_arg)
                    (Z.to_nat budget) 1 None 0 []) as Hcalls.
      destruct (Z.to_nat budget) eqn:E; [lia | exact Hcalls].
Qed.
End RetryFacts.

Lemma retry_contract_witness :
  Retry.retryRequest
    (λ k, if (k <? 2)%nat then Threw (OtherValue "offline") else Returned "ok")
    (Some 3) (Some 1000)
  = Retry.mkRun (Returned "ok") 3 [1000; 2000]
  ∧ Retry.retryRequest (T := string)
      (λ k, Threw (ErrorInstance "Error" (pretty k))) (Some 3) (Some 1000)
    = Retry.mkRun (Threw (ErrorInstance "Error" "2")) 3 [1000; 2000].
Proof.
  destruct (retry_contract (T := string)
              (λ k, if (k <? 2)%nat then Threw (OtherValue "offline") else Returned "ok")
              (λ k, Threw (ErrorInstance "Error" (pretty k)))
              3 1000 2 "ok" (ErrorInstance "Error" "2")) as (H1 & H2 & _).
  - simpl. lia.
  - intros k Hk. exists (OtherValue "offline").
    destruct k as [|[|k]]; [reflexivity | reflexivity | lia].
  - reflexivity.
  - intros k _. by eexists.
  - reflexivity.
  - exact (conj H1 H2).
Defined.

Lemma retry_without_attempts_witness :
  Retry.retryRequest (T := string) (λ _, Returned "ok") (Some 0) None
  = Retry.mkRun (Threw (TypeErrorReadingUndefined "message")) 0 [].
Proof.
  apply (retry_without_attempts (T := string) (λ _, Returned "ok") 0 None). lia.
Defined.

(** ** Cache keys *)

Section CacheKeyFacts.
Import Json.
Implicit Types (fields : list (string * json)) (k : string).





(** ** C5 *)

End CacheKeyFacts.



(** ** The question endpoint *)

Section QuestionFacts.
Context `{Constants}.
Context (suspiciousPatterns spamPatterns : list (string → bool)).
Import Question.
Implicit Types (request : NextRequest) (up : Upstream) (s : HandlerState).

Ltac run_handler :=
  unfold Question.POST, Question.POST_try, Handler.try_catch, Question.checkLimit,
    Question.getRemaining, Handler.call, Handler.emit, Handler.throw,
    mbind, mret, Handler_bind, Handler_ret, Handler.bind, Handler.ret,
    events_of, caller; simpl.

Ltac not_an_event Hin :=
  apply list_elem_of_In in Hin; simpl in Hin; intuition discriminate.

(** Closes a path of the handler that started by reading the body. *)
Ltac on_path :=
  simpl; rewrite <- ?app_assoc, ?drop_app_length; simpl;
  (split; [reflexivity | split; [discriminate | intros _; split; reflexivity]]).

(** ** C8 *)

(** C8. When the moderation check of the request's input answers with a
    flagged result, the handler makes no completion call for the request,
    and if the moderation check was made the response is the error (status
    400) that names the flagged categories. *)
Theorem flagged_input_gets_no_completion request up s input first rest :
  json_input request = Returned input →
  moderations_create up input = Returned (first :: rest) →
  flagged first = true →
  let r := POST suspiciousPatterns spamPatterns request up s in
  existsb is_completion (events_of s r.2) = false
  ∧ (ModerationsCreate input ∈ events_of s r.2 →
     r.1 = Returned (flagged_response first)
     ∧ events_of s r.2 = [ReadBody; ModerationsCreate input]).
Proof.
  intros Hbody Hmod Hflag. run_handler.
  destruct (ServerRateLimiter.checkLimit (store s) _ (now_checkLimit up))
    as [[|] store'] eqn:Hcheck; simpl.
  - rewrite Hbody. simpl.
    destruct (isValid (InputValidator.validateText _ _ input 2000)); simpl.
    + destruct (String.eqb (default "" (OPENAI_API_KEY up)) ""); simpl.
      * rewrite <- app_assoc, drop_app_length. simpl. split; [done |].
        intros Hin. not_an_event Hin.
      * rewrite Hmod. simpl. rewrite Hflag. simpl.
        rewrite <- app_assoc, drop_app_length. simpl. done.
    + rewrite drop_app_length. simpl. split; [done |].
      intros Hin. not_an_event Hin.
  - rewrite drop_all. simpl. split; [done |]. intros Hin. not_an_event Hin.
Qed.

(** ** C9 *)

(** C9. The rate-limit check is the handler's first step and its only
    write to the store: whatever the body, the validation, the moderation
    and the completion turn out to be, the store after the request is the
    store [checkLimit] left.  A denied request is answered 429 with nothing
    else done (the body is not read).  An allowed request has consumed one
    unit (a fresh entry of count 1, or the live entry's count plus one)
    before the body is read, and keeps it consumed on every path. *)
Theorem rate_limit_unit_is_not_refunded request up s :
  let ip := caller request in
  let now := now_checkLimit up in
  let checked := ServerRateLimiter.checkLimit (store s) ip now in
  let r := POST suspiciousPatterns spamPatterns request up s in
  store r.2 = checked.2
  ∧ (checked.1 = false → r = (Returned rate_limited_response, s))
  ∧ (checked.1 = true →
     head (events_of s r.2) = Some ReadBody
     ∧ store r.2 !! ip
       = Some (match store s !! ip with
               | Some entry =>
                   if now >? resetTime entry
                   then mkEntry 1 (now + STORAGE_WINDOW_MS)
                   else mkEntry (count entry + 1) (resetTime entry)
               | None => mkEntry 1 (now + STORAGE_WINDOW_MS)
               end)).
Proof.
  run_handler.
  set (ip := or_else (headers request !! "x-forwarded-for")
               (or_else (headers request !! "x-real-ip") "unknown")).
  pose proof (checkLimit_denied (store s) ip (now_checkLimit up)) as Hdenied.
  assert ((ServerRateLimiter.checkLimit (store s) ip (now_checkLimit up)).1 = true →
          (ServerRateLimiter.checkLimit (store s) ip (now_checkLimit up)).2 !! ip
          = Some (match store s !! ip with
                  | Some entry =>
                      if now_checkLimit up >? resetTime entry
                      then mkEntry 1 (now_checkLimit up + STORAGE_WINDOW_MS)
                      else mkEntry (count entry + 1) (resetTime entry)
                  | None => mkEntry 1 (now_checkLimit up + STORAGE_WINDOW_MS)
                  end)) as Hallowed.
  { unfold ServerRateLimiter.checkLimit. destruct (store s !! ip) as [entry|].
    - destruct (now_checkLimit up >? resetTime entry); simpl.
      + intros _. by rewrite lookup_insert_eq.
      + destruct (count entry >=? MAX_REQUESTS); simpl; [done |].
        intros _. by rewrite lookup_insert_eq.
    - simpl. intros _. by rewrite lookup_insert_eq. }
  destruct (ServerRateLimiter.checkLimit (store s) ip (now_checkLimit up))
    as [[|] store'] eqn:Hcheck; simpl in *.
  - rewrite <- (Hallowed eq_refl).
    destruct (json_input request) as [input|err]; simpl; [| on_path].
    destruct (isValid (InputValidator.validateText _ _ input 2000)); simpl; [| on_path].
    destruct (String.eqb (default "" (OPENAI_API_KEY up)) ""); simpl; [on_path |].
    destruct (moderations_create up input) as [[|first rest]|err]; simpl;
      [on_path | | on_path].
    destruct (flagged first); simpl; [on_path |].
    destruct (responses_create up MODEL instructions input) as [resp|err]; simpl;
      [| on_path].
    destruct (String.eqb (status resp) "completed"); simpl; on_path.
  - rewrite (Hdenied eq_refl). split; [done |]. split; [| done].
    intros _. unfold rate_limited_response. f_equal. by destruct s.
Qed.
End QuestionFacts.

Lemma flagged_input_gets_no_completion_witness :
  let r := Question.POST (H := sample_constants) [] [] sample_request sample_upstream
             (mkState ∅ []) in
  r.1 = Returned (mkNextResponse 400
          (ErrorBody (Some "Content flagged as inappropriate: hate, self-harm")))
  ∧ trace r.2 = [ReadBody; ModerationsCreate (Some "hello")].
Proof.
  intros r.
  destruct (flagged_input_gets_no_completion (H := sample_constants) [] []
              sample_request sample_upstream (mkState ∅ []) (Some "hello")
              (mkModeration true [("hate", true); ("violence", false); ("self-harm", true)])
              []) as [_ Hflagged].
  - reflexivity.
  - reflexivity.
  - reflexivity.
  - apply Hflagged. vm_compute. apply list_elem_of_In. simpl. tauto.
Defined.

Lemma rate_limit_unit_is_not_refunded_witness :
  let r := Question.POST (H := sample_constants) [] [] sample_request sample_upstream
             (mkState ∅ []) in
  store r.2 !! "10.0.0.1" = Some (mkEntry 1 110).
Proof.
  intros r.
  destruct (rate_limit_unit_is_not_refunded (H := sample_constants) [] []
              sample_request sample_upstream (mkState ∅ [])) as (_ & _ & Hallowed).
  apply Hallowed. reflexivity.
Defined.

(** ** The two limiters differ under every configuration *)

Section LimitersDiffer.
Context `{Constants}.

Lemma server_run_app times1 : ∀ (store : gmap string RateLimitEntry) ip times2,
  (ServerRateLimiter.run store ip (times1 ++ times2)).1
  = (ServerRateLimiter.run store ip times1).1
    ++ (ServerRateLimiter.run (ServerRateLimiter.run store ip times1).2 ip times2).1.
Proof.
  induction times1 as [|now rest IH]; intros store ip times2; [done |].
  cbn [app ServerRateLimiter.run].
  destruct (ServerRateLimiter.checkLimit store ip now) as [ok store'].
  specialize (IH store' ip times2).
  destruct (ServerRateLimiter.run store' ip (rest ++ times2)) as [oks1 s1].
  destruct (ServerRateLimiter.run store' ip rest) as [oks2 s2].
  simpl in *. by rewrite IH.
Qed.

Lemma client_run_app times1 : ∀ (localStorage : gmap string (list Z)) times2,
  (ClientRateLimiter.run localStorage (times1 ++ times2)).1
  = (ClientRateLimiter.run localStorage times1).1
    ++ (ClientRateLimiter.run (ClientRateLimiter.run localStorage times1).2 times2).1.
Proof.
  induction times1 as [|now rest IH]; intros ls times2; [done |].
  cbn [app ClientRateLimiter.run].
  destruct (ClientRateLimiter.checkLimit ls now) as [ok ls'].
  specialize (IH ls' times2).
  destruct (ClientRateLimiter.run ls' (rest ++ times2)) as [oks1 s1].
  destruct (ClientRateLimiter.run ls' rest) as [oks2 s2].
  simpl in *. by rewrite IH.
Qed.

Lemma server_run_one (store : gmap string RateLimitEntry) ip now :
  (ServerRateLimiter.run store ip [now]).1
  = [(ServerRateLimiter.checkLimit store ip now).1].
Proof. simpl. by destruct (ServerRateLimiter.checkLimit store ip now). Qed.

Lemma client_run_one (localStorage : gmap string (list Z)) now :
  (ClientRateLimiter.run localStorage [now]).1
  = [(ClientRateLimiter.checkLimit localStorage now).1].
Proof. simpl. by destruct (ClientRateLimiter.checkLimit localStorage now). Qed.

(** Checks at one instant [t] only ever store [t]. *)
Lemma client_stores_instant t n : ∀ (localStorage : gmap string (list Z)),
  Forall (λ ts, ts = t) (ClientRateLimiter.requests_of localStorage) →
  Forall (λ ts, ts = t)
    (ClientRateLimiter.requests_of
       (ClientRateLimiter.run localStorage (replicate n t)).2).
Proof.
  induction n as [|n IH]; intros ls Hall; [done |].
  cbn [replicate ClientRateLimiter.run].
  destruct (ClientRateLimiter.checkLimit ls t) as [ok ls'] eqn:Hcheck.
  specialize (IH ls').
  destruct (ClientRateLimiter.run ls' (replicate n t)) as [oks ls''].
  simpl in *. apply IH.
  unfold ClientRateLimiter.checkLimit in Hcheck.
  destruct (_ >=? _) in Hcheck; injection Hcheck as <- <-; [done |].
  rewrite requests_of_stored. apply Forall_app. split; [| by apply Forall_singleton].
  apply Forall_forall. intros ts [_ Hin]%list_elem_of_filter.
  by apply (proj1 (Forall_forall _ _) Hall).
Qed.

(** Whatever the quota and the (non-negative) window, some sequence of
    checks gets different answers from the two limiters: the first check
    when the quota is below one, otherwise [MAX_REQUESTS] checks at instant 0
    followed by one at the instant [STORAGE_WINDOW_MS], which the server
    denies (the entry is live until after its [resetTime]) and the client
    allows (the stored timestamps are no longer younger than the window). *)
Lemma limiters_differ_under_every_configuration ip :
  0 ≤ STORAGE_WINDOW_MS →
  ∃ times,
    (ServerRateLimiter.run ∅ ip times).1 ≠ (ClientRateLimiter.run ∅ times).1.
Proof.
  intros Hw. destruct (Z.lt_ge_cases MAX_REQUESTS 1) as [Hq|Hq].
  - exists [0]. cbn [ServerRateLimiter.run ClientRateLimiter.run].
    rewrite checkLimit_absent by done.
    unfold ClientRateLimiter.checkLimit, ClientRateLimiter.requests_of.
    rewrite lookup_empty. simpl.
    change (Z.of_nat 0) with 0.
    destruct (Z.geb_spec 0 MAX_REQUESTS); [simpl; intros Heq; discriminate Heq | lia].
  - exists ((0 :: replicate (Z.to_nat MAX_REQUESTS - 1) 0) ++ [STORAGE_WINDOW_MS]).
    rewrite server_run_app, client_run_app.
    destruct (run_from_absent ∅ ip 0 (replicate (Z.to_nat MAX_REQUESTS - 1) 0))
      as [_ Hentry].
    + done.
    + apply Forall_replicate. lia.
    + rewrite length_replicate. lia.
    + rewrite length_replicate in Hentry.
      rewrite server_run_one, client_run_one.
      rewrite (checkLimit_exhausted _ _ _ _ Hentry) by (simpl; lia).
      pose proof (client_stores_instant 0 (S (Z.to_nat MAX_REQUESTS - 1)) ∅) as Hzero.
      cbn [replicate] in Hzero.
      set (ls := (ClientRateLimiter.run ∅ (0 :: replicate (Z.to_nat MAX_REQUESTS - 1) 0)).2) in *.
      assert (ClientRateLimiter.checkLimit ls STORAGE_WINDOW_MS
              = (true, <[ClientRateLimiter.storage_key := [STORAGE_WINDOW_MS]]> ls)) as Hallow.
      { unfold ClientRateLimiter.checkLimit.
        assert (filter (λ timestamp, STORAGE_WINDOW_MS - timestamp < STORAGE_WINDOW_MS)
                  (ClientRateLimiter.requests_of ls) = []) as ->.
        { specialize (Hzero ltac:(done)).
          induction Hzero as [|ts l -> _ IH]; [done |].
          rewrite filter_cons_False by lia. done. }
        simpl. change (Z.of_nat 0) with 0.
        destruct (Z.geb_spec 0 MAX_REQUESTS); [lia | done]. }
      rewrite Hallow. simpl. intros Heq.
      apply app_inj_tail in Heq as [_ Heq]. discriminate Heq.
Qed.
End LimitersDiffer.

(** ** The periodic sweep *)

Section CleanupFacts.
Context `{Constants}.
Import ServerRateLimiter.

Lemma cleanup_lookup (store : gmap string RateLimitEntry) ip swept :
  cleanup store swept !! ip
  = match store !! ip with
    | Some entry => if swept >? resetTime entry then None else Some entry
    | None => None
    end.
Proof.
  unfold cleanup. destruct (store !! ip) as [entry|] eqn:Hs.
  - destruct (swept >? resetTime entry) eqn:Hgt.
    + apply map_lookup_filter_None_2. right. intros x Hx. simpl.
      rewrite Hs in Hx. injection Hx as <-. by rewrite Hgt.
    + apply map_lookup_filter_Some_2; [done |]. simpl. by rewrite Hgt.
  - apply map_lookup_filter_None_2. by left.
Qed.

(** The sweep is housekeeping only: a caller whose entry it removed gets
    the answers an expired entry would have given. *)
Lemma cleanup_is_unobservable (store : gmap string RateLimitEntry) ip swept now :
  swept ≤ now →
  (checkLimit (cleanup store swept) ip now).1 = (checkLimit store ip now).1
  ∧ (checkLimit (cleanup store swept) ip now).2 !! ip = (checkLimit store ip now).2 !! ip
  ∧ getRemaining (cleanup store swept) ip now = getRemaining store ip now.
Proof.
  intros Hle. unfold checkLimit, getRemaining. rewrite cleanup_lookup.
  destruct (store !! ip) as [entry|] eqn:Hs; simpl; [| by rewrite !lookup_insert_eq].
  destruct (Z.gtb_spec swept (resetTime entry)) as [Hswept|Hkept].
  - destruct (Z.gtb_spec now (resetTime entry)); [| lia].
    simpl. by rewrite !lookup_insert_eq.
  - destruct (Z.gtb_spec now (resetTime entry)); simpl.
    + by rewrite !lookup_insert_eq.
    + destruct (count entry >=? MAX_REQUESTS); simpl.
      * rewrite cleanup_lookup, Hs.
        by destruct (Z.gtb_spec swept (resetTime entry)); [lia |].
      * by rewrite !lookup_insert_eq.
Qed.
End CleanupFacts.

(** ** Evaluations on concrete inputs *)

Example validateText_blank :
  InputValidator.validateText [] [] (Some "   ") 2000
  = mkValidation false (Some "Please enter some text to translate").
Proof. reflexivity. Qed.

Example validateText_too_long :
  InputValidator.validateText [] [] (Some "hello") 4
  = mkValidation false (Some "Text too long. Maximum 4 characters allowed.").
Proof. reflexivity. Qed.

Example validateText_pattern_order :
  InputValidator.validateText [λ _, true] [λ _, true] (Some "hello") 2000
  = mkValidation false (Some "Potentially malicious content detected").
Proof. reflexivity. Qed.

Example validateText_hello :
  InputValidator.validateText [λ _, false] [λ _, false] (Some "hello") 2000
  = mkValidation true None.
Proof. reflexivity. Qed.

Example stringify_array :
  Json.stringify (JArray [JNumber 1; JNull; JBool false; JNumber (-20)])
  = "[1,null,false,-20]".
Proof. vm_compute. reflexivity. Qed.

Example generateCacheKey_no_params : generateCacheKey "users" None = "users:".
Proof. reflexivity. Qed.

Example retryRequest_defaults :
  Retry.retryRequest (T := string) (λ _, Threw (OtherValue "offline")) None None
  = Retry.mkRun (Threw (ErrorInstance "Error" "Unknown error")) 3 [1000; 2000].
Proof. reflexivity. Qed.

Example POST_answers :
  let up := mkUpstream (Some "sk-test") (λ _, Returned [mkModeration false []])
              (λ _ _ _, Returned (mkResponse "completed" "Paris.")) 100 101 in
  let r := Question.POST (H := sample_constants) [] [] sample_request up (mkState ∅ []) in
  r.1 = Returned (mkNextResponse 200 (AnswerBody "Paris." (Some "hello") 1))
  ∧ trace r.2 = [ReadBody; ModerationsCreate (Some "hello");
                 ResponsesCreate "gpt-4.1" Question.instructions (Some "hello")].
Proof. vm_compute. split; reflexivity. Qed.

Example POST_empty_text :
  let request := mkRequest ∅ (Returned (Some "")) in
  let r := Question.POST (H := sample_constants) [] [] request sample_upstream
             (mkState ∅ []) in
  r.1 = Returned (mkNextResponse 400
          (ErrorBody (Some "Please enter some text to translate")))
  ∧ trace r.2 = [ReadBody]
  ∧ store r.2 !! "unknown" = Some (mkEntry 1 110).
Proof. vm_compute. repeat split; reflexivity. Qed.

(** * Further properties of the server limiter *)

Section ServerLimiterMore.
Context `{Constants}.
Import ServerRateLimiter.
Implicit Types (store : gmap string RateLimitEntry) (ip : string) (now : Z).

(** With a quota of at least one and a window that is no negative
    duration, [checkLimit] allows a request exactly when [getRemaining]
    reads above zero at that instant; an allowed request lowers the reading
    by exactly one and a denied one leaves it. *)
Theorem checkLimit_spends_one_remaining store ip now :
  1 ≤ MAX_REQUESTS → 0 ≤ STORAGE_WINDOW_MS →
  ((checkLimit store ip now).1 = true ↔ 0 < getRemaining store ip now)
  ∧ getRemaining (checkLimit store ip now).2 ip now
    = getRemaining store ip now - (if (checkLimit store ip now).1 then 1 else 0).
Proof.
  intros Hq Hw. unfold checkLimit, getRemaining.
  destruct (store !! ip) as [entry|] eqn:Hs.
  - destruct (Z.gtb_spec now (resetTime entry)) as [Hgt|Hle]; simpl.
    + rewrite lookup_insert_eq. simpl.
      destruct (Z.gtb_spec now (now + STORAGE_WINDOW_MS)); [lia |].
      split; [split; [lia | done] | lia].
    + destruct (Z.geb_spec (count entry) MAX_REQUESTS) as [Hfull|Hfree]; simpl.
      * rewrite Hs. destruct (Z.gtb_spec now (resetTime entry)); [lia |].
        split; [split; [done | lia] | lia].
      * rewrite lookup_insert_eq. simpl.
        destruct (Z.gtb_spec now (resetTime entry)); [lia |].
        split; [split; [lia | done] | lia].
  - simpl. rewrite lookup_insert_eq. simpl.
    destruct (Z.gtb_spec now (now + STORAGE_WINDOW_MS)); [lia |].
    split; [split; [lia | done] | lia].
Qed.

Lemma checkLimit_counts_bounded store ip now :
  counts_bounded store → counts_bounded (checkLimit store ip now).2.
Proof.
  intros Hb ip' entry'. unfold checkLimit.
  destruct (store !! ip) as [entry|] eqn:Hs.
  - pose proof (Hb ip entry Hs) as Hentry.
    destruct (now >? resetTime entry); simpl.
    + destruct (decide (ip = ip')) as [->|Hne].
      * rewrite lookup_insert_eq. intros [= <-]. simpl. lia.
      * rewrite lookup_insert_ne by done. apply Hb.
    + destruct (Z.geb_spec (count entry) MAX_REQUESTS); simpl; [apply Hb |].
      destruct (decide (ip = ip')) as [->|Hne].
      * rewrite lookup_insert_eq. intros [= <-]. simpl. lia.
      * rewrite lookup_insert_ne by done. apply Hb.
  - simpl. destruct (decide (ip = ip')) as [->|Hne].
    + rewrite lookup_insert_eq. intros [= <-]. simpl. lia.
    + rewrite lookup_insert_ne by done. apply Hb.
Qed.

(** Starting from the empty store, whatever calls are made, by any callers
    at any instants, every entry has [1 <= count <= max(1, MAX_REQUESTS)]. *)
Theorem store_counts_stay_within_quota calls ip entry :
  run_calls ∅ calls !! ip = Some entry →
  1 ≤ count entry ≤ Z.max 1 MAX_REQUESTS.
Proof.
  assert (∀ calls store, counts_bounded store → counts_bounded (run_calls store calls))
    as Hrun.
  { clear. intros calls. induction calls as [|[ip now] rest IH]; intros store Hb; [done |].
    simpl. apply IH. by apply checkLimit_counts_bounded. }
  apply (Hrun calls ∅). intros ip' entry'. by rewrite lookup_empty.
Qed.

(** Callers do not share quota: calls of other callers, however many,
    change neither the answer a caller gets nor its remaining quota. *)
Theorem callers_are_isolated store ip others now :
  Forall (λ call, call.1 ≠ ip) others →
  run_calls store others !! ip = store !! ip
  ∧ (checkLimit (run_calls store others) ip now).1 = (checkLimit store ip now).1
  ∧ getRemaining (run_calls store others) ip now = getRemaining store ip now.
Proof.
  intros Hall.
  assert (run_calls store others !! ip = store !! ip) as Hsame.
  { revert store. induction Hall as [|[ip' t] rest Hne _ IH]; intros store; [done |].
    simpl. rewrite IH. by apply checkLimit_other. }
  split; [done |]. unfold checkLimit, getRemaining. rewrite Hsame.
  split; [| done].
  destruct (store !! ip) as [entry|]; [| done].
  destruct (now >? resetTime entry); [done |].
  by destruct (count entry >=? MAX_REQUESTS).
Qed.

(** The sweep keeps exactly the entries whose window has not elapsed, and a
    caller cannot tell that it ran: at any later instant the answer of
    [checkLimit], the entry it leaves and [getRemaining] are what they
    would have been without the sweep. *)
Theorem cleanup_only_drops_elapsed store ip swept now :
  swept ≤ now →
  (∀ entry, cleanup store swept !! ip = Some entry
            ↔ store !! ip = Some entry ∧ swept ≤ resetTime entry)
  ∧ (checkLimit (cleanup store swept) ip now).1 = (checkLimit store ip now).1
  ∧ (checkLimit (cleanup store swept) ip now).2 !! ip = (checkLimit store ip now).2 !! ip
  ∧ getRemaining (cleanup store swept) ip now = getRemaining store ip now.
Proof.
  intros Hle. split; [| by apply cleanup_is_unobservable].
  intros entry. rewrite cleanup_lookup.
  destruct (store !! ip) as [entry0|]; [| split; [done | by intros [? _]]].
  destruct (Z.gtb_spec swept (resetTime entry0)).
  - split; [done |]. intros [[= ->] ?]. lia.
  - split; [by intros [= ->] |]. by intros [? _].
Qed.
End ServerLimiterMore.

Lemma checkLimit_spends_one_remaining_witness :
  let store : gmap string RateLimitEntry := {["10.0.0.1" := mkEntry 1 10]} in
  ServerRateLimiter.getRemaining (H := sample_constants)
    (ServerRateLimiter.checkLimit (H := sample_constants) store "10.0.0.1" 5).2 "10.0.0.1" 5
  = ServerRateLimiter.getRemaining (H := sample_constants) store "10.0.0.1" 5
    - (if (ServerRateLimiter.checkLimit (H := sample_constants) store "10.0.0.1" 5).1
       then 1 else 0).
Proof.
  intros store.
  apply (checkLimit_spends_one_remaining (H := sample_constants) store "10.0.0.1" 5);
    simpl; lia.
Defined.

Lemma store_counts_stay_within_quota_witness :
  1 ≤ count (mkEntry 2 10) ≤ Z.max 1 (MAX_REQUESTS (Constants := sample_constants)).
Proof.
  apply (store_counts_stay_within_quota (H := sample_constants)
           [("10.0.0.1", 0); ("10.0.0.1", 3); ("10.0.0.1", 4); ("10.0.0.2", 4)]
           "10.0.0.1" (mkEntry 2 10)).
  reflexivity.
Defined.

Lemma callers_are_isolated_witness :
  let store : gmap string RateLimitEntry := {["10.0.0.1" := mkEntry 1 10]} in
  ServerRateLimiter.getRemaining (H := sample_constants)
    (ServerRateLimiter.run_calls (H := sample_constants) store
       [("10.0.0.2", 3); ("10.0.0.2", 4); ("10.0.0.2", 5)]) "10.0.0.1" 6
  = ServerRateLimiter.getRemaining (H := sample_constants) store "10.0.0.1" 6.
Proof.
  intros store.
  apply (callers_are_isolated (H := sample_constants) store "10.0.0.1"
           [("10.0.0.2", 3); ("10.0.0.2", 4); ("10.0.0.2", 5)] 6).
  repeat constructor; simpl; discriminate.
Defined.

Lemma cleanup_only_drops_elapsed_witness :
  let store : gmap string RateLimitEntry := {["10.0.0.1" := mkEntry 2 10]} in
  ServerRateLimiter.getRemaining (H := sample_constants)
    (ServerRateLimiter.cleanup store 11) "10.0.0.1" 12
  = ServerRateLimiter.getRemaining (H := sample_constants) store "10.0.0.1" 12.
Proof.
  intros store.
  apply (cleanup_only_drops_elapsed (H := sample_constants) store "10.0.0.1" 11 12).
  lia.
Defined.

(** * Further properties of the client limiter *)

Section ClientLimiterMore.
Context `{Constants}.
Import ClientRateLimiter.
Implicit Types (localStorage : gmap string (list Z)) (now : Z).

Lemma within_within now t l : now ≤ t → within t (within now l) = within t l.
Proof.
  intros Hle. unfold within. induction l as [|ts l IH]; [done |].
  destruct (decide (now - ts < STORAGE_WINDOW_MS)) as [Hin|Hout].
  - rewrite (filter_cons_True (λ timestamp, now - timestamp < _)) by done.
    destruct (decide (t - ts < STORAGE_WINDOW_MS)) as [Hin'|Hout'].
    + rewrite !(filter_cons_True (λ timestamp, t - timestamp < _)) by done.
      by rewrite IH.
    + rewrite !(filter_cons_False (λ timestamp, t - timestamp < _)) by done. done.
  - rewrite (filter_cons_False (λ timestamp, now - timestamp < _)) by done.
    rewrite (filter_cons_False (λ timestamp, t - timestamp < _)) by lia. done.
Qed.

Lemma within_app t l1 l2 : within t (l1 ++ l2) = within t l1 ++ within t l2.
Proof. apply filter_app. Qed.

Lemma client_checkLimit_cases localStorage now :
  checkLimit localStorage now
  = if Z.of_nat (length (within now (requests_of localStorage))) >=? MAX_REQUESTS
    then (false, localStorage)
    else (true, <[storage_key := within now (requests_of localStorage) ++ [now]]>
                  localStorage).
Proof. reflexivity. Qed.

(** [checkLimit] allows a request exactly when [getRemainingRequests] reads
    above zero at that instant.  A denied request leaves [localStorage] as it
    was.  With a positive window, an allowed request lowers the reading by
    exactly one, and what it stores is the timestamps still younger than the
    window followed by its own, never more than the quota. *)
Theorem client_checkLimit_spends_one_remaining localStorage now :
  0 < STORAGE_WINDOW_MS →
  ((checkLimit localStorage now).1 = true ↔ 0 < getRemainingRequests localStorage now)
  ∧ ((checkLimit localStorage now).1 = false → (checkLimit localStorage now).2 = localStorage)
  ∧ ((checkLimit localStorage now).1 = true →
     requests_of (checkLimit localStorage now).2
     = filter (λ timestamp, now - timestamp < STORAGE_WINDOW_MS) (requests_of localStorage)
       ++ [now]
     ∧ Z.of_nat (length (requests_of (checkLimit localStorage now).2)) ≤ MAX_REQUESTS
     ∧ getRemainingRequests (checkLimit localStorage now).2 now
       = getRemainingRequests localStorage now - 1).
Proof.
  intros Hw. unfold checkLimit, getRemainingRequests.
  set (valid := filter _ (requests_of localStorage)).
  destruct (Z.geb_spec (Z.of_nat (length valid)) MAX_REQUESTS) as [Hfull|Hfree]; simpl.
  - split; [split; [done | lia] |]. split; done.
  - split; [split; [lia | done] |]. split; [done |]. intros _.
    rewrite requests_of_stored. split; [done |].
    rewrite filter_app, length_app.
    assert (filter (λ timestamp, now - timestamp < STORAGE_WINDOW_MS) valid = valid) as ->.
    { subst valid. apply (within_within now now). lia. }
    rewrite filter_cons_True by lia. simpl. rewrite length_app. simpl. lia.
Qed.

(** The invariant of a run in time order: at every instant from the last
    check on, the allowed checks younger than the window are the stored
    timestamps younger than the window. *)
Lemma client_run_tracks_window times : ∀ localStorage t0 allowed,
  nondecreasing_from t0 times →
  (∀ t, t0 ≤ t → within t allowed = within t (requests_of localStorage)) →
  Z.of_nat (length (requests_of localStorage)) ≤ MAX_REQUESTS →
  let r := run localStorage times in
  (∀ t, Forall (λ x, x ≤ t) (t0 :: times) →
        within t (allowed ++ allowed_times r.1 times) = within t (requests_of r.2))
  ∧ Z.of_nat (length (requests_of r.2)) ≤ MAX_REQUESTS.
Proof.
  induction times as [|now rest IH]; intros ls t0 allowed Hsorted Hinv Hlen.
  - simpl. split; [| done]. intros t Ht. rewrite app_nil_r. apply Hinv.
    by apply Forall_cons in Ht as [? _].
  - destruct Hsorted as [Hnow Hsorted]. cbn [run].
    rewrite client_checkLimit_cases.
    destruct (Z.geb_spec (Z.of_nat (length (within now (requests_of ls)))) MAX_REQUESTS)
      as [Hfull|Hfree].
    + specialize (IH ls now allowed Hsorted).
      destruct (run ls rest) as [oks ls'] eqn:Hrun. simpl in *.
      destruct IH as [IH1 IH2]; [intros t Ht; apply Hinv; lia | done |].
      split; [| done]. intros t Ht. apply IH1.
      apply Forall_cons in Ht as [_ Ht]. done.
    + specialize (IH (<[storage_key := within now (requests_of ls) ++ [now]]> ls)
                     now (allowed ++ [now]) Hsorted).
      destruct (run _ rest) as [oks ls'] eqn:Hrun. simpl in *.
      rewrite requests_of_stored in IH.
      destruct IH as [IH1 IH2].
      * intros t Ht. rewrite !within_app. f_equal.
        rewrite within_within by done. apply Hinv. lia.
      * rewrite length_app. simpl. lia.
      * split; [| done]. intros t Ht. rewrite <- IH1.
        -- by rewrite <- app_assoc.
        -- apply Forall_cons in Ht as [_ Ht]. done.
Qed.

(** The guarantee of the sliding window: over checks made in time order
    from an empty [localStorage], with a quota that is not negative, no
    window ever holds more than [MAX_REQUESTS] allowed checks: at any
    instant [t] from the last check on, the allowed checks younger than
    [STORAGE_WINDOW_MS] number at most [MAX_REQUESTS]. *)
Theorem client_window_never_exceeds_quota localStorage t1 times t :
  0 ≤ MAX_REQUESTS →
  requests_of localStorage = [] →
  nondecreasing_from t1 times →
  Forall (λ x, x ≤ t) (t1 :: times) →
  Z.of_nat (length (filter (λ timestamp, t - timestamp < STORAGE_WINDOW_MS)
                      (allowed_times (run localStorage (t1 :: times)).1 (t1 :: times))))
  ≤ MAX_REQUESTS.
Proof.
  intros Hq Hempty Hsorted Ht.
  destruct (client_run_tracks_window (t1 :: times) localStorage t1 []) as [Hwin Hlen].
  - simpl. split; [lia | done].
  - intros t' _. by rewrite Hempty.
  - rewrite Hempty. simpl. lia.
  - assert (Forall (λ x, x ≤ t) (t1 :: t1 :: times)) as Ht'.
    { apply Forall_cons. split; [| done]. by apply Forall_cons in Ht as [? _]. }
    specialize (Hwin t Ht'). rewrite app_nil_l in Hwin. unfold within in Hwin.
    rewrite Hwin. etrans; [| exact Hlen]. apply inj_le. apply length_filter.
Qed.
End ClientLimiterMore.

Lemma client_checkLimit_spends_one_remaining_witness :
  let localStorage : gmap string (list Z) := {["translation_requests" := [0; 95]]} in
  ClientRateLimiter.requests_of
    (ClientRateLimiter.checkLimit (H := sample_constants) localStorage 100).2
  = [95; 100].
Proof.
  intros localStorage.
  destruct (client_checkLimit_spends_one_remaining (H := sample_constants) localStorage 100)
    as (_ & _ & Hallowed).
  - simpl. lia.
  - apply Hallowed. reflexivity.
Defined.

Lemma client_window_never_exceeds_quota_witness :
  Z.of_nat (length (filter (λ timestamp, 12 - timestamp < 10)
                      (allowed_times
                         (ClientRateLimiter.run (H := sample_constants) ∅ [0; 9; 11; 12]).1
                         [0; 9; 11; 12])))
  ≤ 2.
Proof.
  apply (client_window_never_exceeds_quota (H := sample_constants) ∅ 0 [9; 11; 12] 12).
  - simpl. lia.
  - reflexivity.
  - simpl. lia.
  - repeat constructor; lia.
Defined.

(** * Further properties of the TTL cache *)

Section ApiCacheMore.
Context {A : Type}.
Implicit Types (cache : gmap string (CacheEntry A)) (key : string) (item : CacheEntry A).

(** [set] replaces whatever entry the key had, expired or not: only the
    last [set] counts, with its own timestamp and [ttl], and a [get] no
    later than that [ttl] allows returns the last value. *)
Theorem set_replaces_entry cache key (v1 v2 : A) ttl1 ttl2 t1 t2 now :
  now - t2 ≤ default ApiCache.default_ttl ttl2 →
  ApiCache.set (ApiCache.set cache key v1 ttl1 t1) key v2 ttl2 t2
  = ApiCache.set cache key v2 ttl2 t2
  ∧ (ApiCache.get (ApiCache.set (ApiCache.set cache key v1 ttl1 t1) key v2 ttl2 t2)
       key now).1 = Some v2.
Proof.
  intros Hfresh.
  assert (ApiCache.set (ApiCache.set cache key v1 ttl1 t1) key v2 ttl2 t2
          = ApiCache.set cache key v2 ttl2 t2) as ->.
  { unfold ApiCache.set. apply insert_insert_eq. }
  split; [done |].
  by rewrite (get_fresh _ _ (mkCacheEntry v2 t2 (default ApiCache.default_ttl ttl2)))
    by (apply set_lookup || done).
Qed.

(** An entry stored without a [ttl] is served for 300000 ms and is gone
    after that. *)
Theorem entry_without_ttl_lives_five_minutes cache key (v : A) t now :
  ApiCache.get (ApiCache.set cache key v None t) key now
  = if now - t >? 300000
    then (None, delete key (ApiCache.set cache key v None t))
    else (Some v, ApiCache.set cache key v None t).
Proof. unfold ApiCache.get. by rewrite set_lookup. Qed.

Lemma get_depends_on_entry cache1 cache2 key now :
  cache1 !! key = cache2 !! key →
  (ApiCache.get cache1 key now).1 = (ApiCache.get cache2 key now).1.
Proof.
  intros Heq. unfold ApiCache.get. rewrite Heq.
  destruct (cache2 !! key) as [item|]; [| done].
  by destruct (now - timestamp item >? ttl item).
Qed.

(** Keys do not interfere: a [set], a [get] (with the eviction it may do) or
    a [delete] of one key changes nothing that a [get] of another key
    returns. *)
Theorem cache_keys_are_independent cache key key' (v : A) ttl_arg t now now' :
  key ≠ key' →
  (ApiCache.get (ApiCache.set cache key v ttl_arg t) key' now').1
  = (ApiCache.get cache key' now').1
  ∧ (ApiCache.get (ApiCache.get cache key now).2 key' now').1
    = (ApiCache.get cache key' now').1
  ∧ (ApiCache.get (ApiCache.delete cache key).2 key' now').1
    = (ApiCache.get cache key' now').1.
Proof.
  intros Hne. repeat split; apply get_depends_on_entry.
  - unfold ApiCache.set. by rewrite lookup_insert_ne.
  - unfold ApiCache.get. destruct (cache !! key) as [item|]; [| done].
    destruct (now - timestamp item >? ttl item); simpl; [| done].
    by rewrite lookup_delete_ne.
  - unfold ApiCache.delete. simpl. by rewrite lookup_delete_ne.
Qed.

(** The eviction a [get] does cannot be told from later reads: at any
    instant from that [get] on, a [get] returns what it would have returned
    had the earlier [get] not been made. *)
Theorem eviction_is_unobservable cache key now now' :
  now ≤ now' →
  (ApiCache.get (ApiCache.get cache key now).2 key now').1
  = (ApiCache.get cache key now').1.
Proof.
  intros Hle. unfold ApiCache.get at 2 3.
  destruct (cache !! key) as [item|] eqn:Hs; [| by rewrite get_absent].
  destruct (Z.gtb_spec (now - timestamp item) (ttl item)); simpl.
  - rewrite get_absent by apply lookup_delete_eq.
    by destruct (Z.gtb_spec (now' - timestamp item) (ttl item)); [| lia].
  - unfold ApiCache.get. by rewrite Hs.
Qed.

(** [delete] reports whether the map held an entry, expired or not: for an
    expired entry that no [get] has met it reports [true], and after a [get]
    has evicted that entry it reports [false].  After [delete], and after
    [clear], a [get] of the key returns absent. *)
Theorem delete_reports_unevicted_entries cache key item now :
  cache !! key = Some item →
  ttl item < now - timestamp item →
  (ApiCache.get cache key now).1 = None
  ∧ (ApiCache.delete cache key).1 = true
  ∧ (ApiCache.delete (ApiCache.get cache key now).2 key).1 = false
  ∧ (∀ t, (ApiCache.get (ApiCache.delete cache key).2 key t).1 = None)
  ∧ (∀ t, (ApiCache.get (ApiCache.clear cache) key t).1 = None).
Proof.
  intros Hs Hstale. rewrite (get_stale _ _ item) by done.
  unfold ApiCache.delete, ApiCache.clear. simpl.
  split; [done |].
  split; [by rewrite Hs; apply bool_decide_eq_true_2 |].
  split; [rewrite lookup_delete_eq; apply bool_decide_eq_false_2; by intros [? ?] |].
  split; intros t; by rewrite get_absent by (apply lookup_delete_eq || apply lookup_empty).
Qed.
End ApiCacheMore.

Lemma set_replaces_entry_witness :
  (ApiCache.get
     (ApiCache.set (ApiCache.set ∅ "users:" "alice" (Some 5) 0) "users:" "bob" None 1000)
     "users:" 301000).1
  = Some "bob".
Proof.
  apply (set_replaces_entry (A := string) ∅ "users:" "alice" "bob" (Some 5) None 0 1000 301000).
  unfold ApiCache.default_ttl. simpl. lia.
Defined.

Lemma cache_keys_are_independent_witness :
  (ApiCache.get (ApiCache.set {["posts:" := mkCacheEntry "p" 0 10]} "users:" "u" None 5)
     "posts:" 7).1
  = (ApiCache.get ({["posts:" := mkCacheEntry "p" 0 10]} : gmap string (CacheEntry string))
       "posts:" 7).1.
Proof.
  apply (cache_keys_are_independent (A := string) {["posts:" := mkCacheEntry "p" 0 10]}
           "users:" "posts:" "u" None 5 0 7).
  discriminate.
Defined.

Lemma eviction_is_unobservable_witness :
  (ApiCache.get
     (ApiCache.get ({["posts:" := mkCacheEntry "p" 0 10]} : gmap string (CacheEntry string))
        "posts:" 11).2 "posts:" 12).1
  = (ApiCache.get ({["posts:" := mkCacheEntry "p" 0 10]} : gmap string (CacheEntry string))
       "posts:" 12).1.
Proof.
  apply (eviction_is_unobservable (A := string) {["posts:" := mkCacheEntry "p" 0 10]}
           "posts:" 11 12).
  lia.
Defined.

Lemma delete_reports_unevicted_entries_witness :
  let cache : gmap string (CacheEntry string) := {["posts:" := mkCacheEntry "p" 0 10]} in
  (ApiCache.get cache "posts:" 11).1 = None
  ∧ (ApiCache.delete cache "posts:").1 = true
  ∧ (ApiCache.delete (ApiCache.get cache "posts:" 11).2 "posts:").1 = false.
Proof.
  intros cache.
  destruct (delete_reports_unevicted_entries (A := string) cache "posts:"
              (mkCacheEntry "p" 0 10) 11) as (H1 & H2 & H3 & _).
  - reflexivity.
  - simpl. lia.
  - exact (conj H1 (conj H2 H3)).
Defined.

(** * Further properties of the retry wrapper *)

Section RetryMore.
Context {T : Type}.
Import Retry.
Implicit Types (requestFn : nat → outcome T) (maxRetries delay attempt : Z).

Lemma loop_step requestFn maxRetries delay iterations attempt lastError ncalls waited :
  loop requestFn maxRetries delay (S iterations) attempt lastError ncalls waited
  = match requestFn ncalls with
    | Returned v => mkRun (Returned v) (S ncalls) waited
    | Threw error =>
        if attempt =? maxRetries then mkRun (Threw (toError error)) (S ncalls) waited
        else loop requestFn maxRetries delay iterations (attempt + 1)
               (Some (toError error)) (S ncalls) (waited ++ [delay * 2 ^ (attempt - 1)])
    end.
Proof. reflexivity. Qed.

Lemma loop_stops_at requestFn maxRetries delay iterations :
  ∀ attempt lastError ncalls waited,
  attempt + Z.of_nat (S iterations) = maxRetries + 1 →
  ∃ j, (j ≤ iterations)%nat
       ∧ loop requestFn maxRetries delay (S iterations) attempt lastError ncalls waited
         = mkRun (settle (requestFn (ncalls + j)%nat)) (S (ncalls + j))
                 (waited ++ waits_from delay attempt j)
       ∧ (∀ k, (k < j)%nat → threw (requestFn (ncalls + k)%nat))
       ∧ (threw (requestFn (ncalls + j)%nat) → j = iterations).
Proof.
  induction iterations as [|iterations IH]; intros attempt lastError ncalls waited Hinv.
  - exists 0%nat. split; [done |].
    split; [| split; [intros k Hk; lia | done]].
    apply (loop_settles requestFn maxRetries delay 0); [done | lia | intros k Hk; lia | done].
  - destruct (requestFn ncalls) as [v|err] eqn:Hfirst.
    + exists 0%nat. split; [lia |]. rewrite Nat.add_0_r.
      split; [| split; [intros k Hk; lia |]].
      * rewrite loop_step, Hfirst. unfold waits_from. simpl. by rewrite app_nil_r.
      * rewrite Hfirst. intros [e He]. discriminate He.
    + destruct (IH (attempt + 1) (Some (toError err)) (S ncalls)
                   (waited ++ [delay * 2 ^ (attempt - 1)])) as (j & Hj & Hrun & Hbefore & Hlast);
        [lia |].
      exists (S j). split; [lia |].
      replace (ncalls + S j)%nat with (S ncalls + j)%nat by lia.
      split; [| split].
      * rewrite loop_step, Hfirst.
        rewrite (proj2 (Z.eqb_neq attempt maxRetries)) by lia.
        rewrite Hrun, waits_from_S, <- app_assoc. done.
      * intros k Hk. destruct k as [|k].
        -- rewrite Nat.add_0_r, Hfirst. by eexists.
        -- replace (ncalls + S k)%nat with (S ncalls + k)%nat by lia. apply Hbefore. lia.
      * intros Ht. specialize (Hlast Ht). lia.
Qed.

Lemma total_wait_app l1 l2 : total_wait (l1 ++ l2) = total_wait l1 + total_wait l2.
Proof.
  unfold total_wait. induction l1 as [|x l1 IH]; simpl; [done |]. rewrite IH. lia.
Qed.

Lemma total_wait_backoff delay n :
  total_wait (backoff delay n) = delay * (2 ^ Z.of_nat n - 1).
Proof.
  induction n as [|n IH]; [simpl; lia |].
  unfold backoff in *. rewrite seq_S, fmap_app, total_wait_app, IH. simpl.
  rewrite Nat2Z.inj_succ, Z.pow_succ_r by lia. unfold total_wait. simpl. lia.
Qed.

(** Whatever the operation does, a run of [retryRequest] with a budget of
    at least one invokes it between once and [maxRetries] times, every
    invocation but the last having failed; it ends as its last invocation
    ended (returning its value, or throwing its error made an [Error]); it
    stops short of the budget only on a success; and it waited
    [delay * 2^(i-1)] after the [i]th failure that was not the last. *)
Theorem retry_run_characterised requestFn maxRetries delay :
  1 ≤ maxRetries →
  let r := retryRequest requestFn (Some maxRetries) (Some delay) in
  (1 ≤ calls r ≤ Z.to_nat maxRetries)%nat
  ∧ (∀ k, (k < calls r - 1)%nat → threw (requestFn k))
  ∧ result r = settle (requestFn (calls r - 1)%nat)
  ∧ ((calls r < Z.to_nat maxRetries)%nat → ∃ v, result r = Returned v)
  ∧ waits r = backoff delay (calls r - 1).
Proof.
  intros Hbudget r. subst r. unfold retryRequest. simpl.
  destruct (Z.to_nat maxRetries) as [|iterations] eqn:Hit; [lia |].
  destruct (loop_stops_at requestFn maxRetries delay iterations 1 None 0 [])
    as (j & Hj & -> & Hbefore & Hlast); [lia |].
  simpl. rewrite Nat.sub_0_r, waits_from_one.
  split; [lia |]. split; [done |]. split; [done |]. split; [| done].
  intros Hshort. destruct (requestFn j) as [v|err] eqn:Hr; [by eexists |].
  assert (j = iterations) by (apply Hlast; by eexists). lia.
Qed.

(** The time spent waiting is [delay * (2^(n-1) - 1)] for a run of [n]
    invocations, so never more than [delay * (2^(maxRetries-1) - 1)] when
    the delay is not negative. *)
Theorem retry_total_wait_bounded requestFn maxRetries delay :
  1 ≤ maxRetries → 0 ≤ delay →
  let r := retryRequest requestFn (Some maxRetries) (Some delay) in
  total_wait (waits r) = delay * (2 ^ (Z.of_nat (calls r) - 1) - 1)
  ∧ total_wait (waits r) ≤ delay * (2 ^ (maxRetries - 1) - 1).
Proof.
  intros Hbudget Hdelay r. subst r. unfold retryRequest. simpl.
  destruct (Z.to_nat maxRetries) as [|iterations] eqn:Hit; [lia |].
  destruct (loop_stops_at requestFn maxRetries delay iterations 1 None 0 [])
    as (j & Hj & -> & _ & _); [lia |].
  simpl. rewrite waits_from_one, total_wait_backoff.
  replace (Z.of_nat (S j) - 1) with (Z.of_nat j) by lia.
  split; [done |].
  apply Z.mul_le_mono_nonneg_l; [done |].
  apply Z.sub_le_mono_r. apply Z.pow_le_mono_r; lia.
Qed.
End RetryMore.

Lemma retry_run_characterised_witness :
  let r := Retry.retryRequest
             (λ k, if (k <? 1)%nat then Threw (OtherValue "offline") else Returned "ok")
             (Some 3) (Some 1000) in
  Retry.result r = Retry.settle (Returned "ok") ∧ Retry.waits r = [1000].
Proof.
  intros r.
  destruct (retry_run_characterised (T := string)
              (λ k, if (k <? 1)%nat then Threw (OtherValue "offline") else Returned "ok")
              3 1000) as (_ & _ & Hres & _ & Hwaits).
  - lia.
  - exact (conj Hres Hwaits).
Defined.

Lemma retry_total_wait_bounded_witness :
  total_wait (Retry.waits (Retry.retryRequest (T := string)
                (λ _, Threw (OtherValue "offline")) (Some 4) (Some 1000)))
  ≤ 1000 * (2 ^ (4 - 1) - 1).
Proof.
  apply (retry_total_wait_bounded (T := string) (λ _, Threw (OtherValue "offline")) 4 1000);
    lia.
Defined.

(** * The cache key and the response helpers *)

Section HelperFacts.
Implicit Types (response error params : option json).

(** Parameters that are falsy ([undefined], [null], [false], [0], the
    empty string) leave no trace in the key: all of them get the key of the
    request without parameters, the endpoint followed by a colon. *)
Theorem falsy_params_share_one_key endpoint params :
  js_truthy params = false →
  generateCacheKey endpoint params = endpoint +:+ ":"
  ∧ generateCacheKey endpoint params = generateCacheKey endpoint None.
Proof.
  intros Hfalsy. unfold generateCacheKey.
  destruct params as [p|]; simpl in *; [| done]. by rewrite Hfalsy.
Qed.

(** [validateApiResponse] answers [true] exactly for an object without a
    truthy [error] field and for an array.  For a falsy response it does not
    answer [false] but gives the response back ([null] for [null], [0] for
    [0]). *)
Theorem validateApiResponse_spec response :
  (validateApiResponse response = Some (JBool true)
   ↔ ∃ r, response = Some r
          ∧ ((∃ fields, r = JObject fields
                        ∧ js_truthy (Json.field "error" fields) = false)
             ∨ ∃ items, r = JArray items))
  ∧ (js_truthy response = false → validateApiResponse response = response).
Proof.
  split.
  - destruct response as [[|[|]|n|s|items|fields]|]; simpl.
    + split; [done |]. intros (r & [= <-] & [(? & ? & _)|(? & ?)]); done.
    + split; [done |]. intros (r & [= <-] & [(? & ? & _)|(? & ?)]); done.
    + split; [done |]. intros (r & [= <-] & [(? & ? & _)|(? & ?)]); done.
    + destruct (n =? 0); simpl;
        (split; [done |]; intros (r & [= <-] & [(? & ? & _)|(? & ?)]); done).
    + destruct (String.eqb s ""); simpl;
        (split; [done |]; intros (r & [= <-] & [(? & ? & _)|(? & ?)]); done).
    + split; [intros _; eexists; split; [done |]; right; by eexists | done].
    + split.
      * intros [= Herr]. eexists. split; [done |]. left. eexists. split; [done |].
        by destruct (js_truthy (Json.field "error" fields)).
      * intros (r & [= <-] & [(fs & [= <-] & Herr)|(? & ?)]); [| done]. by rewrite Herr.
    + split; [done |]. by intros (r & ? & _).
  - destruct response as [r|]; [| done]. simpl. by intros ->.
Qed.

End HelperFacts.

Lemma falsy_params_share_one_key_witness :
  generateCacheKey "users" (Some (JNumber 0)) = generateCacheKey "users" None.
Proof. apply (falsy_params_share_one_key "users" (Some (JNumber 0))). reflexivity. Defined.

Lemma validateApiResponse_spec_witness :
  validateApiResponse (Some JNull) = Some JNull.
Proof. apply (validateApiResponse_spec (Some JNull)). reflexivity. Defined.


(** * The input validator *)

Section InputValidatorFacts.
Context (suspiciousPatterns spamPatterns : list (string → bool)).
Import InputValidator.

Lemma trimStart_empty s : trimStart s = "" ↔ all_whitespace s = true.
Proof.
  induction s as [|c s IH]; simpl; [done |].
  destruct (is_whitespace c); simpl; [done |]. split; discriminate.
Qed.

Lemma all_whitespace_trimStart s : all_whitespace (trimStart s) = all_whitespace s.
Proof.
  induction s as [|c s IH]; simpl; [done |].
  destruct (is_whitespace c) eqn:Hc; simpl; [done |]. by rewrite Hc.
Qed.

Lemma all_whitespace_rev_app s : ∀ acc,
  all_whitespace (String.rev_app s acc) = all_whitespace s && all_whitespace acc.
Proof.
  induction s as [|c s IH]; intros acc; simpl; [done |].
  rewrite IH. simpl. by destruct (is_whitespace c), (all_whitespace s).
Qed.

Lemma rev_app_empty s : ∀ acc, String.rev_app s acc = "" ↔ s = "" ∧ acc = "".
Proof.
  induction s as [|c s IH]; intros acc; simpl.
  - split; [by intros -> | by intros [_ ->]].
  - rewrite IH. split; [by intros [_ ?] | by intros [? _]].
Qed.

(** [text.trim().length === 0] holds exactly for a text of white space
    only. *)
Lemma trim_empty s : (String.length (trim s) =? 0)%nat = all_whitespace s.
Proof.
  assert (trim s = "" ↔ all_whitespace s = true) as Hiff.
  { unfold trim, String.rev. rewrite rev_app_empty, trimStart_empty.
    rewrite all_whitespace_rev_app, all_whitespace_trimStart. simpl.
    rewrite andb_true_r. split; [by intros [? _] | done]. }
  destruct (all_whitespace s).
  - by rewrite (proj2 Hiff).
  - destruct (trim s) eqn:Ht; [| done]. exfalso.
    by pose proof (proj1 Hiff eq_refl).
Qed.

Lemma validateText_cases text max_text_length :
  validateText suspiciousPatterns spamPatterns text max_text_length
  = match text with
    | None => mkValidation false (Some "Please enter some text to translate")
    | Some s =>
        if all_whitespace s then
          mkValidation false (Some "Please enter some text to translate")
        else if Z.of_nat (String.length s) >? max_text_length then
          mkValidation false
            (Some ("Text too long. Maximum " +:+ pretty max_text_length
                   +:+ " characters allowed."))
        else if existsb (λ pattern, pattern s) suspiciousPatterns then
          mkValidation false (Some "Potentially malicious content detected")
        else if existsb (λ pattern, pattern s) spamPatterns then
          mkValidation false (Some "Content contains prohibited patterns")
        else mkValidation true None
    end.
Proof.
  destruct text as [s|]; [| done]. unfold validateText. rewrite trim_empty.
  destruct s as [|c s]; [done |]. done.
Qed.

(** A text is rejected with the request to enter text exactly when it is
    missing or holds nothing but white space, whatever its length and
    whatever the patterns would say: that check comes first. *)
Theorem blank_text_is_asked_for text max_text_length :
  validateText suspiciousPatterns spamPatterns text max_text_length
  = mkValidation false (Some "Please enter some text to translate")
  ↔ ∀ s, text = Some s → all_whitespace s = true.
Proof.
  rewrite validateText_cases. destruct text as [s|]; [| by split].
  destruct (all_whitespace s) eqn:Hws; [split; [by intros _ s' [= <-] | done] |].
  split; [| intros Hs; specialize (Hs s eq_refl); congruence].
  destruct (_ >? _); [discriminate |].
  destruct (existsb _ suspiciousPatterns); [discriminate |].
  destruct (existsb _ spamPatterns); discriminate.
Qed.

(** A text is accepted exactly when it holds something besides white
    space, is no longer than the maximum and matches none of the patterns;
    the result carries an error message exactly when the text is rejected. *)
Theorem validateText_accepts_iff text max_text_length :
  let v := validateText suspiciousPatterns spamPatterns text max_text_length in
  (isValid v = true
   ↔ ∃ s, text = Some s
          ∧ all_whitespace s = false
          ∧ Z.of_nat (String.length s) ≤ max_text_length
          ∧ Forall (λ pattern, pattern s = false) (suspiciousPatterns ++ spamPatterns))
  ∧ (error v = None ↔ isValid v = true).
Proof.
  intros v. subst v. rewrite validateText_cases.
  destruct text as [s|]; [| split; [split; [done | by intros (? & ? & _)] | done]].
  destruct (all_whitespace s) eqn:Hws.
  { split; [| done]. split; [done |]. intros (s' & [= <-] & Hne & _). congruence. }
  destruct (Z.gtb_spec (Z.of_nat (String.length s)) max_text_length) as [Hlong|Hfits].
  { split; [| done]. split; [done |]. intros (s' & [= <-] & _ & Hle & _). lia. }
  setoid_rewrite Forall_app.
  destruct (existsb _ suspiciousPatterns) eqn:Hsus.
  { split; [| done]. split; [done |]. intros (s' & [= <-] & _ & _ & Hall & _).
    apply existsb_exists in Hsus as (p & Hin & Hp).
    apply list_elem_of_In in Hin.
    rewrite Forall_forall in Hall. specialize (Hall p Hin). congruence. }
  destruct (existsb _ spamPatterns) eqn:Hspam.
  { split; [| done]. split; [done |]. intros (s' & [= <-] & _ & _ & _ & Hall).
    apply existsb_exists in Hspam as (p & Hin & Hp).
    apply list_elem_of_In in Hin.
    rewrite Forall_forall in Hall. specialize (Hall p Hin). congruence. }
  split; [| done]. split; [| done]. intros _. exists s.
  split; [done |]. split; [done |]. split; [done |].
  split; apply Forall_forall; intros p Hin; apply list_elem_of_In in Hin.
  - destruct (p s) eqn:Hp; [| done].
    assert (existsb (λ pattern, pattern s) suspiciousPatterns = true) as Hex
      by (apply existsb_exists; eauto).
    congruence.
  - destruct (p s) eqn:Hp; [| done].
    assert (existsb (λ pattern, pattern s) spamPatterns = true) as Hex
      by (apply existsb_exists; eauto).
    congruence.
Qed.
End InputValidatorFacts.

Lemma blank_text_is_asked_for_witness :
  InputValidator.validateText [λ _, true] [] (Some "  ") 1
  = mkValidation false (Some "Please enter some text to translate").
Proof.
  apply (proj2 (blank_text_is_asked_for [λ _, true] [] (Some "  ") 1)).
  intros s [= <-]. reflexivity.
Defined.

Lemma validateText_accepts_iff_witness :
  isValid (InputValidator.validateText [λ _, false] [λ _, false] (Some "hello") 5) = true.
Proof.
  apply (proj2 (proj1 (validateText_accepts_iff [λ _, false] [λ _, false] (Some "hello") 5))).
  exists "hello". split; [reflexivity |]. split; [reflexivity |]. split; [simpl; lia |].
  repeat constructor.
Defined.

(** * Further properties of the question endpoint *)

Lemma validateText_of_blank suspiciousPatterns spamPatterns text max_text_length :
  (∀ s, text = Some s → all_whitespace s = true) →
  InputValidator.validateText suspiciousPatterns spamPatterns text max_text_length
  = mkValidation false (Some "Please enter some text to translate").
Proof.
  intros Hblank. rewrite validateText_cases. destruct text as [s|]; [| done].
  by rewrite (Hblank s eq_refl).
Qed.

Section QuestionMore.
Context `{Constants}.
Context (suspiciousPatterns spamPatterns : list (string → bool)).
Import Question.
Implicit Types (request : NextRequest) (up : Upstream) (s : HandlerState).

Ltac step_handler :=
  unfold Question.POST, Question.POST_try, Handler.try_catch, Question.checkLimit,
    Question.getRemaining, Handler.call, Handler.emit, Handler.throw,
    mbind, mret, Handler_bind, Handler_ret, Handler.bind, Handler.ret,
    events_of, caller; simpl.

Ltac in_list :=
  apply list_elem_of_In; simpl; repeat (first [left; reflexivity | right]).

Ltac events_done :=
  simpl; rewrite <- ?app_assoc, ?drop_app_length, ?drop_all; simpl.


(** The handler never throws: every request gets a response, with status
    200, 400, 429 or 500.  What it does to the outside is one of five
    sequences: nothing; reading the body; reading the body and logging the
    missing key; reading the body and the moderation call; these two and the
    completion call for the same input.  Status 200 goes with the last
    sequence only. *)
Theorem POST_always_responds request up s :
  let r := POST suspiciousPatterns spamPatterns request up s in
  ∃ response,
    r.1 = Returned response
    ∧ http_status response ∈ [200; 400; 429; 500]
    ∧ events_of s r.2 ∈ question_events (input_of request)
    ∧ (http_status response = 200 →
       events_of s r.2
       = [ReadBody; ModerationsCreate (input_of request);
          ResponsesCreate MODEL instructions (input_of request)]).
Proof.
  step_handler. unfold question_events, input_of.
  destruct (ServerRateLimiter.checkLimit (store s) _ (now_checkLimit up))
    as [[|] store'] eqn:Hcheck; simpl.
  2: { events_done. eexists. split; [done |]. split; [in_list |].
       split; [in_list | done]. }
  destruct (json_input request) as [input|err]; simpl.
  2: { events_done. eexists. split; [done |]. split; [in_list |].
       split; [in_list | done]. }
  destruct (isValid (InputValidator.validateText _ _ input 2000)); simpl.
  2: { events_done. eexists. split; [done |]. split; [in_list |].
       split; [in_list | done]. }
  destruct (String.eqb (default "" (OPENAI_API_KEY up)) ""); simpl.
  { events_done. eexists. split; [done |]. split; [in_list |].
    split; [in_list | done]. }
  destruct (moderations_create up input) as [[|first rest]|err]; simpl.
  1, 3: events_done; eexists; (split; [done |]); (split; [in_list |]);
        (split; [in_list | done]).
  destruct (flagged first); simpl.
  { events_done. eexists. split; [done |]. split; [in_list |].
    split; [in_list | done]. }
  destruct (responses_create up MODEL instructions input) as [resp|err]; simpl.
  2: { events_done. eexists. split; [done |]. split; [in_list |].
       split; [in_list | done]. }
  destruct (String.eqb (status resp) "completed"); simpl;
    events_done; eexists; (split; [done |]); (split; [in_list |]);
    (split; [in_list | done]).
Qed.

(** A text the validator rejects is answered 400 with the validator's
    message; the body was read and nothing upstream was called.  The unit of
    quota the request took stays taken. *)
Theorem rejected_text_reaches_no_upstream request up s input :
  (ServerRateLimiter.checkLimit (store s) (caller request) (now_checkLimit up)).1 = true →
  json_input request = Returned input →
  isValid (InputValidator.validateText suspiciousPatterns spamPatterns input 2000) = false →
  let r := POST suspiciousPatterns spamPatterns request up s in
  r.1 = Returned (mkNextResponse 400
          (ErrorBody (error (InputValidator.validateText suspiciousPatterns spamPatterns
                               input 2000))))
  ∧ events_of s r.2 = [ReadBody]
  ∧ ((∀ text, input = Some text → all_whitespace text = true) →
     r.1 = Returned (mkNextResponse 400
             (ErrorBody (Some "Please enter some text to translate")))).
Proof.
  intros Hallowed Hbody Hinvalid. step_handler. unfold caller in Hallowed.
  destruct (ServerRateLimiter.checkLimit (store s) _ (now_checkLimit up))
    as [ok store'] eqn:Hcheck. simpl in Hallowed. subst ok. simpl.
  rewrite Hbody. simpl. rewrite Hinvalid. simpl. events_done.
  split; [done |]. split; [done |]. intros Hblank.
  by rewrite validateText_of_blank.
Qed.

(** Without an API key (unset or empty) a valid request is answered 500
    with a fixed message that does not say what is missing; the cause is
    only logged, and nothing upstream is called. *)
Theorem missing_key_is_not_disclosed request up s input :
  (ServerRateLimiter.checkLimit (store s) (caller request) (now_checkLimit up)).1 = true →
  json_input request = Returned input →
  isValid (InputValidator.validateText suspiciousPatterns spamPatterns input 2000) = true →
  default "" (OPENAI_API_KEY up) = "" →
  let r := POST suspiciousPatterns spamPatterns request up s in
  r.1 = Returned (mkNextResponse 500
          (ErrorBody (Some "Translation service temporarily unavailable")))
  ∧ events_of s r.2 = [ReadBody; ConsoleError "OpenAI API key not configured"].
Proof.
  intros Hallowed Hbody Hvalid Hkey. step_handler. unfold caller in Hallowed.
  destruct (ServerRateLimiter.checkLimit (store s) _ (now_checkLimit up))
    as [ok store'] eqn:Hcheck. simpl in Hallowed. subst ok. simpl.
  rewrite Hbody. simpl. rewrite Hvalid, Hkey. simpl. events_done. done.
Qed.

(** The answer of a request that passes every gate: status 200 with the
    generated text (the fixed text when the upstream gave none), the input
    echoed, and the caller's remaining quota read from the store the
    rate-limit check left. *)
Theorem answered_request request up s input first rest response :
  (ServerRateLimiter.checkLimit (store s) (caller request) (now_checkLimit up)).1 = true →
  json_input request = Returned input →
  isValid (InputValidator.validateText suspiciousPatterns spamPatterns input 2000) = true →
  default "" (OPENAI_API_KEY up) ≠ "" →
  moderations_create up input = Returned (first :: rest) →
  flagged first = false →
  responses_create up MODEL instructions input = Returned response →
  status response = "completed" →
  let r := POST suspiciousPatterns spamPatterns request up s in
  r.1 = Returned (mkNextResponse 200
          (AnswerBody
             (if String.eqb (output_text response) "" then "Response recieved"
              else output_text response)
             input
             (ServerRateLimiter.getRemaining
                (ServerRateLimiter.checkLimit (store s) (caller request)
                   (now_checkLimit up)).2
                (caller request) (now_getRemaining up)))).
Proof.
  intros Hallowed Hbody Hvalid Hkey Hmod Hflag Hresp Hstatus.
  step_handler. unfold caller in *.
  destruct (ServerRateLimiter.checkLimit (store s) _ (now_checkLimit up))
    as [ok store'] eqn:Hcheck. simpl in Hallowed. subst ok. simpl.
  rewrite Hbody. simpl. rewrite Hvalid. simpl.
  rewrite (proj2 (String.eqb_neq _ _) Hkey). simpl.
  rewrite Hmod. simpl. rewrite Hflag. simpl. rewrite Hresp. simpl.
  rewrite Hstatus. simpl. done.
Qed.

(** Failures past the gates are answered 500 with the failure's message:
    a body that cannot be read, a moderation or completion call that throws
    (the message of the error, or a fixed text when what was thrown is no
    error), and a completion that does not report completed (its status is
    named). *)
Theorem failures_are_answered_500 request up s :
  (ServerRateLimiter.checkLimit (store s) (caller request) (now_checkLimit up)).1 = true →
  let r := POST suspiciousPatterns spamPatterns request up s in
  let failure (e : thrown) :=
    Returned (mkNextResponse 500
      (ErrorBody (Some (if instanceofError e then message_of e else "OpenAI failed")))) in
  (∀ e, json_input request = Threw e → r.1 = failure e)
  ∧ (∀ input,
       json_input request = Returned input →
       isValid (InputValidator.validateText suspiciousPatterns spamPatterns input 2000)
       = true →
       default "" (OPENAI_API_KEY up) ≠ "" →
       (∀ e, moderations_create up input = Threw e → r.1 = failure e)
       ∧ (∀ first rest,
            moderations_create up input = Returned (first :: rest) →
            flagged first = false →
            (∀ e, responses_create up MODEL instructions input = Threw e → r.1 = failure e)
            ∧ (∀ response,
                 responses_create up MODEL instructions input = Returned response →
                 status response ≠ "completed" →
                 r.1 = Returned (mkNextResponse 500
                         (ErrorBody (Some ("Responses API error: " +:+ status response))))))).
Proof.
  intros Hallowed. step_handler. unfold caller in *.
  destruct (ServerRateLimiter.checkLimit (store s) _ (now_checkLimit up))
    as [ok store'] eqn:Hcheck. simpl in Hallowed. subst ok. simpl.
  split; [by intros e -> |].
  intros input -> Hvalid Hkey. simpl. rewrite Hvalid. simpl.
  rewrite (proj2 (String.eqb_neq _ _) Hkey). simpl.
  split; [by intros e -> |].
  intros first rest -> Hflag. simpl. rewrite Hflag. simpl.
  split; [by intros e -> |].
  intros response -> Hstatus. simpl.
  by rewrite (proj2 (String.eqb_neq _ _) Hstatus).
Qed.

End QuestionMore.

Lemma POST_always_responds_witness :
  ∃ response,
    (Question.POST (H := sample_constants) [] [] sample_request sample_upstream
       (mkState ∅ [])).1 = Returned response
    ∧ http_status response ∈ [200; 400; 429; 500].
Proof.
  destruct (POST_always_responds (H := sample_constants) [] [] sample_request
              sample_upstream (mkState ∅ [])) as (response & Hr & Hstatus & _).
  exists response. exact (conj Hr Hstatus).
Defined.

Lemma rejected_text_reaches_no_upstream_witness :
  let request := mkRequest ∅ (Returned (Some "   ")) in
  let r := Question.POST (H := sample_constants) [] [] request sample_upstream
             (mkState ∅ []) in
  r.1 = Returned (mkNextResponse 400
          (ErrorBody (Some "Please enter some text to translate")))
  ∧ Question.events_of (mkState ∅ []) r.2 = [ReadBody].
Proof.
  intros request r.
  destruct (rejected_text_reaches_no_upstream (H := sample_constants) [] [] request
              sample_upstream (mkState ∅ []) (Some "   ")) as (H1 & H2 & _).
  - reflexivity.
  - reflexivity.
  - reflexivity.
  - exact (conj H1 H2).
Defined.

Lemma missing_key_is_not_disclosed_witness :
  let up := mkUpstream (Some "") (λ _, Returned []) (λ _ _ _, Threw (OtherValue "")) 0 0 in
  (Question.POST (H := sample_constants) [] [] sample_request up (mkState ∅ [])).1
  = Returned (mkNextResponse 500
      (ErrorBody (Some "Translation service temporarily unavailable"))).
Proof.
  intros up.
  apply (missing_key_is_not_disclosed (H := sample_constants) [] [] sample_request up
           (mkState ∅ []) (Some "hello")); reflexivity.
Defined.

Lemma answered_request_witness :
  let up := mkUpstream (Some "sk-test") (λ _, Returned [mkModeration false []])
              (λ _ _ _, Returned (mkResponse "completed" "")) 100 105 in
  (Question.POST (H := sample_constants) [] [] sample_request up (mkState ∅ [])).1
  = Returned (mkNextResponse 200 (AnswerBody "Response recieved" (Some "hello") 1)).
Proof.
  intros up. etrans.
  - apply (answered_request (H := sample_constants) [] [] sample_request up (mkState ∅ [])
             (Some "hello") (mkModeration false []) [] (mkResponse "completed" ""));
      try reflexivity.
    discriminate.
  - vm_compute. reflexivity.
Defined.

Lemma failures_are_answered_500_witness :
  let up := mkUpstream (Some "sk-test") (λ _, Returned [mkModeration false []])
              (λ _ _ _, Returned (mkResponse "incomplete" "")) 100 105 in
  (Question.POST (H := sample_constants) [] [] sample_request up (mkState ∅ [])).1
  = Returned (mkNextResponse 500 (ErrorBody (Some "Responses API error: incomplete"))).
Proof.
  intros up.
  destruct (failures_are_answered_500 (H := sample_constants) [] [] sample_request up
              (mkState ∅ [])) as [_ Hpast]; [reflexivity |].
  destruct (Hpast (Some "hello")) as [_ Hmod]; [reflexivity | reflexivity | discriminate |].
  destruct (Hmod (mkModeration false []) []) as [_ Hresp]; [reflexivity | reflexivity |].
  apply (Hresp (mkResponse "incomplete" "")); [reflexivity | discriminate].
Defined.


(** * The proxy route *)

Section ProxyFacts.
Context {Data : Type}.
Import Proxy.
Implicit Types (request : ProxyRequest) (w : World (Data := Data))
  (s : ProxyState (Data := Data)) (path : string).

Ltac run_route :=
  unfold handleProxyRequest, forward, route_catch, route_bind, route_ret, await, emit,
    cache_get, cache_set, fetches; simpl.

(** Settles what a path added to the trace. *)
Ltac route_trace :=
  repeat (destruct (bool_decide (error_name _ = _)); simpl);
  rewrite <- ?app_assoc, ?drop_app_length, ?drop_all; simpl; try done.

Lemma PROXY_CONFIGS_undefined env path :
  PROXY_CONFIGS env path = Undefined
  ↔ path ≠ "users" ∧ path ≠ "products" ∧ path ∉ object_prototype_names.
Proof.
  unfold PROXY_CONFIGS.
  destruct (String.eqb_spec path "users") as [->|Hu]; [split; [done | by intros [? _]] |].
  destruct (String.eqb_spec path "products") as [->|Hp];
    [split; [done | by intros (_ & ? & _)] |].
  case_bool_decide as Hproto; [split; [done | by intros (_ & _ & ?)] | done].
Qed.

(** A path that names no configured target (and no member that the table
    of targets inherits) is answered 404 with a message naming the path; the
    request is not forwarded and the cache is left alone. *)
Theorem unknown_target_is_not_forwarded request pathSegments method w s :
  let path := String.concat "/" pathSegments in
  path ≠ "users" → path ≠ "products" → path ∉ object_prototype_names →
  handleProxyRequest request pathSegments method w s
  = (Returned (mkProxyResponse 404 []
       (ErrorJson ("API endpoint '" +:+ path +:+ "' not configured"))), s).
Proof.
  intros path Hu Hp Hproto. unfold handleProxyRequest. fold path.
  by rewrite (proj2 (PROXY_CONFIGS_undefined (env w) path)).
Qed.

(** A path that is the name of a member of [Object.prototype] is taken for
    a configured target: a [GET] for it, with the cache off, is forwarded to
    the address [undefined] followed by the query string. *)
Theorem inherited_name_is_forwarded request pathSegments w s :
  String.concat "/" pathSegments ∈ object_prototype_names →
  cache_enabled w = false →
  let r := handleProxyRequest request pathSegments "GET" w s in
  fetches s r.2
  = [Fetch ("undefined" +:+ search request) "GET" (copy_headers request) None].
Proof.
  intros Hproto Hoff. run_route.
  assert (PROXY_CONFIGS (env w) (String.concat "/" pathSegments) = Inherited) as ->.
  { unfold PROXY_CONFIGS.
    destruct (String.eqb_spec (String.concat "/" pathSegments) "users") as [Heq|_].
    { rewrite Heq in Hproto. apply list_elem_of_In in Hproto. simpl in Hproto.
      intuition discriminate. }
    destruct (String.eqb_spec (String.concat "/" pathSegments) "products") as [Heq|_].
    { rewrite Heq in Hproto. apply list_elem_of_In in Hproto. simpl in Hproto.
      intuition discriminate. }
    by rewrite bool_decide_eq_true_2. }
  simpl. rewrite Hoff. simpl.
  unfold add_config_headers. simpl.
  destruct (fetch w _ _ _ _) as [response|err]; simpl; [| route_trace].
  destruct (read_body response) as [d|err]; simpl; [| route_trace].
  rewrite andb_false_r. simpl.
  destruct (NextResponse_json _ _ _); simpl; route_trace.
Qed.

Lemma configured_not_undefined env path :
  path = "users" ∨ path = "products" →
  ∃ config, PROXY_CONFIGS env path = OwnConfig config ∧ is_Some (target config).
Proof.
  intros [-> | ->]; unfold PROXY_CONFIGS; simpl; eexists; split; done.
Qed.

Lemma own_config_has_no_headers env path config :
  PROXY_CONFIGS env path = OwnConfig config → config_headers config = None.
Proof.
  unfold PROXY_CONFIGS. destruct (path =? "users")%string; [by intros [= <-] |].
  destruct (path =? "products")%string; [by intros [= <-] |].
  by destruct (bool_decide _).
Qed.

Lemma headers_of_found env path :
  add_config_headers (config_of (PROXY_CONFIGS env path))
  = (λ headers, headers).
Proof.
  unfold add_config_headers.
  destruct (PROXY_CONFIGS env path) as [config| |] eqn:Hfound; simpl; [| done | done].
  by rewrite (own_config_has_no_headers env path config Hfound).
Qed.

(** The three ways a request for a known path goes: the body cannot be
    read; the cache answers; the request is forwarded. *)
Lemma handle_unreadable request pathSegments method w s error :
  PROXY_CONFIGS (env w) (String.concat "/" pathSegments) ≠ Undefined →
  forwarded_body request method = Threw error →
  handleProxyRequest request pathSegments method w s
  = (Returned (failure_response error),
     mkProxyState (responseCache s) (proxy_trace s ++ [LogError error])).
Proof.
  intros Hfound Hbody. unfold forwarded_body in Hbody. run_route.
  destruct (PROXY_CONFIGS (env w) _) as [config| |]; [| | done]; simpl.
  all: destruct (negb (method =? "GET")%string && negb (method =? "HEAD")%string);
    [| discriminate Hbody].
  all: destruct (request_text request) as [text|err]; [discriminate Hbody |].
  all: injection Hbody as ->; simpl; unfold failure_response.
  all: by destruct (bool_decide _).
Qed.

Lemma handle_hit request pathSegments method w s body entry :
  PROXY_CONFIGS (env w) (String.concat "/" pathSegments) ≠ Undefined →
  forwarded_body request method = Returned body →
  served_from_cache request (String.concat "/" pathSegments) method w s = true →
  responseCache s !! cacheKey (String.concat "/" pathSegments) request = Some entry →
  handleProxyRequest request pathSegments method w s = (Returned (hit_response entry), s).
Proof.
  intros Hfound Hbody Hserved Hentry. unfold forwarded_body in Hbody.
  unfold served_from_cache in Hserved. rewrite Hentry in Hserved.
  apply andb_prop in Hserved as [Hserved Hyoung].
  apply andb_prop in Hserved as [Hget Hon].
  run_route.
  destruct (PROXY_CONFIGS (env w) _) as [config| |]; [| | done]; simpl.
  all: rewrite Hget, Hon in *; simpl in *; rewrite Hentry, Hyoung; done.
Qed.

Lemma handle_forwarded request pathSegments method w s body :
  let path := String.concat "/" pathSegments in
  let config := config_of (PROXY_CONFIGS (env w) path) in
  let url := targetUrl config request in
  let headers := copy_headers request in
  let traced := proxy_trace s ++ [Fetch url method headers body] in
  PROXY_CONFIGS (env w) path ≠ Undefined →
  forwarded_body request method = Returned body →
  served_from_cache request path method w s = false →
  handleProxyRequest request pathSegments method w s
  = match fetch w url method headers body with
    | Threw error =>
        (Returned (failure_response error),
         mkProxyState (responseCache s) (traced ++ [LogError error]))
    | Returned response =>
        match read_body response with
        | Threw error =>
            (Returned (failure_response error),
             mkProxyState (responseCache s) (traced ++ [LogError error]))
        | Returned d =>
            let cache :=
              if (method =? "GET")%string && ok response && cache_enabled w
              then <[cacheKey path request := mkCached d (now_store w) (cacheTTL w)]>
                     (responseCache s)
              else responseCache s in
            match NextResponse_json (fetched_status response)
                    (responseHeaders method (content_type response)) (DataJson d) with
            | Returned answer => (Returned answer, mkProxyState cache traced)
            | Threw error =>
                (Returned (failure_response error),
                 mkProxyState cache (traced ++ [LogError error]))
            end
        end
    end.
Proof.
  intros path config url headers traced Hfound Hbody Hserved.
  assert (∀ cfg, forward request path method cfg w headers body s
          = match fetch w (targetUrl cfg request) method headers body with
            | Threw error =>
                (Threw error,
                 mkProxyState (responseCache s)
                   (proxy_trace s ++ [Fetch (targetUrl cfg request) method headers body]))
            | Returned response =>
                match read_body response with
                | Threw error =>
                    (Threw error,
                     mkProxyState (responseCache s)
                       (proxy_trace s ++ [Fetch (targetUrl cfg request) method headers body]))
                | Returned d =>
                    (NextResponse_json (fetched_status response)
                       (responseHeaders method (content_type response)) (DataJson d),
                     mkProxyState
                       (if (method =? "GET")%string && ok response && cache_enabled w
                        then <[cacheKey path request :=
                                 mkCached d (now_store w) (cacheTTL w)]> (responseCache s)
                        else responseCache s)
                       (proxy_trace s ++ [Fetch (targetUrl cfg request) method headers body]))
                end
            end) as Hforward.
  { intros cfg. unfold forward, route_bind, route_ret, await, emit, cache_set. simpl.
    destruct (fetch w _ method headers body) as [response|err]; [| done].
    destruct (read_body response) as [d|err]; [| done].
    by destruct ((method =? "GET")%string && ok response && cache_enabled w). }
  pose proof (headers_of_found (env w) path) as Hheaders.
  unfold forwarded_body in Hbody. unfold served_from_cache in Hserved.
  subst traced url config. unfold handleProxyRequest. fold path.
  destruct (PROXY_CONFIGS (env w) path) as [cfg| |] eqn:Hcfg; [| | done].
  all: rewrite Hheaders; fold headers.
  all: unfold route_catch, route_bind, route_ret, await, cache_get; simpl.
  all: destruct (negb (method =? "GET")%string && negb (method =? "HEAD")%string).
  all: try (destruct (request_text request) as [text|err]; [| discriminate Hbody]).
  all: injection Hbody as <-; simpl.
  all: destruct ((method =? "GET")%string) eqn:Hget; simpl in *.
  all: destruct (cache_enabled w) eqn:Hon; simpl in *.
  all: try (destruct (responseCache s !! cacheKey path request) as [entry|]; simpl in *;
            rewrite ?Hserved).
  all: rewrite Hforward.
  all: destruct (fetch w _ _ headers _) as [response|err]; simpl;
    [| unfold failure_response; by destruct (bool_decide _)].
  all: destruct (read_body response) as [d|err]; simpl;
    [| unfold failure_response; by destruct (bool_decide _)].
  all: rewrite ?andb_false_r; simpl.
  all: destruct (NextResponse_json _ _ _) as [answer|err]; simpl; [done |].
  all: unfold failure_response; by destruct (bool_decide _).
Qed.

Lemma known_or_undefined env path :
  PROXY_CONFIGS env path = Undefined ∨ PROXY_CONFIGS env path ≠ Undefined.
Proof. destruct (PROXY_CONFIGS env path); [by right | by right | by left]. Qed.

Lemma served_has_entry request path method w s :
  served_from_cache request path method w s = true →
  ∃ entry, responseCache s !! cacheKey path request = Some entry
           ∧ method = "GET" ∧ cache_enabled w = true
           ∧ lt_number (now_lookup w - cached_at entry) (cacheTTL w) = true.
Proof.
  unfold served_from_cache. intros Hserved.
  apply andb_prop in Hserved as [Hserved Hyoung].
  apply andb_prop in Hserved as [Hget Hon].
  destruct (responseCache s !! cacheKey path request) as [entry|]; [| done].
  exists entry. by apply String.eqb_eq in Hget.
Qed.

(** A [GET] with the cache on is answered from the cache exactly when the
    cache holds an entry for the path and query string whose age is below
    the configured duration (300000 ms when none is configured): then the
    cached payload is returned with the [X-Cache: HIT] mark and nothing else
    happens; otherwise, an entry of exactly that age included, the request
    is forwarded to the target. *)
Theorem cache_hit_iff_entry_younger_than_ttl request pathSegments w s entry :
  let path := String.concat "/" pathSegments in
  PROXY_CONFIGS (env w) path ≠ Undefined →
  cache_enabled w = true →
  responseCache s !! cacheKey path request = Some entry →
  let r := handleProxyRequest request pathSegments "GET" w s in
  (lt_number (now_lookup w - cached_at entry) (cacheTTL w) = true →
   r = (Returned (hit_response entry), s))
  ∧ (lt_number (now_lookup w - cached_at entry) (cacheTTL w) = false →
     fetches s r.2
     = [Fetch (targetUrl (config_of (PROXY_CONFIGS (env w) path)) request) "GET"
          (copy_headers request) None]).
Proof.
  intros path Hfound Hon Hentry r. subst r. split; intros Hage.
  - apply (handle_hit _ _ _ _ _ None entry); [done | done | | done].
    unfold served_from_cache. fold path. by rewrite Hon, Hentry, Hage.
  - rewrite (handle_forwarded _ _ _ _ _ None); [| done | done |].
    2: { unfold served_from_cache. fold path. by rewrite Hon, Hentry, Hage. }
    fold path. unfold fetches.
    destruct (fetch w _ _ _ _) as [response|err]; simpl; [| route_trace].
    destruct (read_body response) as [d|err]; simpl; [| route_trace].
    destruct (NextResponse_json _ _ _); simpl; route_trace.
Qed.

(** The cache belongs to [GET] with the cache on: any other request leaves
    it exactly as it was; a request changes at most the entry of its own
    path and query string; and an upstream answer that is not ok (a status
    outside 200..299) is not cached. *)
Theorem only_ok_GET_answers_are_cached request pathSegments method w s :
  let r := handleProxyRequest request pathSegments method w s in
  let path := String.concat "/" pathSegments in
  (method ≠ "GET" ∨ cache_enabled w = false → responseCache r.2 = responseCache s)
  ∧ (∀ key, key ≠ cacheKey path request →
            responseCache r.2 !! key = responseCache s !! key)
  ∧ (∀ body response,
       forwarded_body request method = Returned body →
       fetch w (targetUrl (config_of (PROXY_CONFIGS (env w) path)) request) method
         (copy_headers request) body = Returned response →
       ok response = false →
       responseCache r.2 = responseCache s).
Proof.
  intros r path. subst r.
  destruct (known_or_undefined (env w) path) as [Hundef|Hfound].
  { unfold handleProxyRequest. fold path. rewrite Hundef. simpl. done. }
  destruct (forwarded_body request method) as [body|err] eqn:Hbody.
  2: { rewrite (handle_unreadable _ _ _ _ _ err) by done. simpl. done. }
  destruct (served_from_cache request path method w s) eqn:Hserved.
  { destruct (served_has_entry _ _ _ _ _ Hserved) as (entry & Hentry & _).
    rewrite (handle_hit _ _ _ _ _ body entry) by done. done. }
  rewrite (handle_forwarded _ _ _ _ _ body) by done. fold path.
  assert (∀ (b : bool) (d : Data),
    let cache := if b then <[cacheKey path request :=
                               mkCached d (now_store w) (cacheTTL w)]> (responseCache s)
                 else responseCache s in
    (b = false → cache = responseCache s)
    ∧ (∀ key, key ≠ cacheKey path request → cache !! key = responseCache s !! key))
    as Hcache.
  { intros [|] d; simpl; (split; [done |]); intros key Hkey; [| done].
    by rewrite lookup_insert_ne. }
  destruct (fetch w _ _ _ _) as [response|err] eqn:Hfetch; simpl; [| done].
  destruct (read_body response) as [d|err]; simpl.
  2: { split; [done |]. split; [done |]. done. }
  destruct (Hcache ((method =? "GET")%string && ok response && cache_enabled w) d)
    as [Hoff Hother].
  assert (responseCache
            (match NextResponse_json (fetched_status response)
                     (responseHeaders method (content_type response)) (DataJson d) with
             | Returned answer =>
                 (Returned answer,
                  mkProxyState
                    (if (method =? "GET")%string && ok response && cache_enabled w
                     then <[cacheKey path request :=
                              mkCached d (now_store w) (cacheTTL w)]> (responseCache s)
                     else responseCache s)
                    (proxy_trace s ++ [Fetch (targetUrl (config_of (PROXY_CONFIGS (env w) path))
                                                request) method (copy_headers request) body]))
             | Threw error =>
                 (Returned (failure_response error),
                  mkProxyState
                    (if (method =? "GET")%string && ok response && cache_enabled w
                     then <[cacheKey path request :=
                              mkCached d (now_store w) (cacheTTL w)]> (responseCache s)
                     else responseCache s)
                    ((proxy_trace s ++ [Fetch (targetUrl (config_of (PROXY_CONFIGS (env w) path))
                                                 request) method (copy_headers request) body])
                     ++ [LogError error]))
             end).2
          = if (method =? "GET")%string && ok response && cache_enabled w
            then <[cacheKey path request :=
                     mkCached d (now_store w) (cacheTTL w)]> (responseCache s)
            else responseCache s) as ->.
  { by destruct (NextResponse_json _ _ _). }
  split; [| split; [done |]].
  - intros [Hmethod|Hdisabled]; apply Hoff.
    + by rewrite (proj2 (String.eqb_neq _ _) Hmethod).
    + by rewrite Hdisabled, andb_false_r.
  - intros body' response' [= <-] Hfetched Hnotok. fold path in Hfetched.
    rewrite Hfetch in Hfetched. injection Hfetched as <-. apply Hoff.
    by rewrite Hnotok, andb_false_r.
Qed.

(** The route never throws, and forwards a request at most once.  Its
    answer is the cached payload, a 404, a 408 or a 500 of its own, or the
    upstream status (which then allows a body and lies in 200..599). *)
Theorem proxy_always_responds request pathSegments method w s :
  let r := handleProxyRequest request pathSegments method w s in
  ∃ answer,
    r.1 = Returned answer
    ∧ 200 ≤ proxy_status answer ≤ 599
    ∧ null_body_status (proxy_status answer) = false
    ∧ (length (fetches s r.2) ≤ 1)%nat.
Proof.
  intros r. subst r. set (path := String.concat "/" pathSegments).
  assert (∀ e, 200 ≤ proxy_status (failure_response (Data := Data) e) ≤ 599
               ∧ null_body_status (proxy_status (failure_response (Data := Data) e))
                 = false) as Hfail.
  { intros e. unfold failure_response. destruct (bool_decide _); simpl; split; done. }
  destruct (known_or_undefined (env w) path) as [Hundef|Hfound].
  { unfold handleProxyRequest, fetches. fold path. rewrite Hundef. simpl.
    eexists. split; [done |]. rewrite drop_all. simpl. split; [lia |]. split; [done | lia]. }
  destruct (forwarded_body request method) as [body|err] eqn:Hbody.
  2: { rewrite (handle_unreadable _ _ _ _ _ err) by done. unfold fetches. simpl.
       eexists. split; [done |]. rewrite drop_app_length. simpl.
       destruct (Hfail err). split; [done |]. split; [done | lia]. }
  destruct (served_from_cache request path method w s) eqn:Hserved.
  { destruct (served_has_entry _ _ _ _ _ Hserved) as (entry & Hentry & _).
    rewrite (handle_hit _ _ _ _ _ body entry) by done. unfold fetches. simpl.
    eexists. split; [done |]. rewrite drop_all. simpl. split; [lia |]. split; [done | lia]. }
  rewrite (handle_forwarded _ _ _ _ _ body) by done. fold path. unfold fetches.
  destruct (fetch w _ _ _ _) as [response|err]; simpl.
  2: { eexists. split; [done |]. destruct (Hfail err) as [? ?].
       rewrite <- app_assoc, drop_app_length. simpl. split; [done |]. split; [done | lia]. }
  destruct (read_body response) as [d|err]; simpl.
  2: { eexists. split; [done |]. destruct (Hfail err) as [? ?].
       rewrite <- app_assoc, drop_app_length. simpl. split; [done |]. split; [done | lia]. }
  unfold NextResponse_json.
  destruct ((200 <=? fetched_status response) && (fetched_status response <=? 599))
    eqn:Hrange; simpl.
  2: { eexists. split; [done |]. rewrite <- app_assoc, drop_app_length. simpl.
       split; [lia |]. split; [done | lia]. }
  destruct (null_body_status (fetched_status response)) eqn:Hnull; simpl.
  { eexists. split; [done |]. rewrite <- app_assoc, drop_app_length. simpl.
    split; [lia |]. split; [done | lia]. }
  eexists. split; [done |]. rewrite drop_app_length. simpl.
  apply andb_prop in Hrange as [?%Z.leb_le ?%Z.leb_le]. split; [lia |]. split; [done | lia].
Qed.


(** Store then hit: when a [GET] for a configured target, with the cache
    on and no entry for it, is forwarded and gets an ok answer with payload
    [d], a [GET] for the same path and query string that comes while the age
    of that answer is below the cache duration is answered with [d] from the
    cache, without a second [fetch]. *)
Theorem fetched_answer_is_served_from_cache request pathSegments w w' s response d ttl :
  let path := String.concat "/" pathSegments in
  let r := handleProxyRequest request pathSegments "GET" w s in
  PROXY_CONFIGS (env w) path ≠ Undefined →
  cache_enabled w = true →
  responseCache s !! cacheKey path request = None →
  fetch w (targetUrl (config_of (PROXY_CONFIGS (env w) path)) request) "GET"
    (copy_headers request) None = Returned response →
  ok response = true →
  read_body response = Returned d →
  PROXY_CONFIGS (env w') path ≠ Undefined →
  cache_enabled w' = true →
  cacheTTL w' = Some ttl →
  now_lookup w' - now_store w < ttl →
  responseCache r.2 !! cacheKey path request
  = Some (mkCached d (now_store w) (cacheTTL w))
  ∧ handleProxyRequest request pathSegments "GET" w' r.2
    = (Returned (mkProxyResponse 200
                   [("X-Cache", "HIT"); ("Cache-Control", "public, max-age=300")]
                   (DataJson d)), r.2).
Proof.
  intros path r Hfound Hon Hmiss Hfetch Hok Hread Hfound' Hon' Httl Hage.
  assert (responseCache r.2 !! cacheKey path request
          = Some (mkCached d (now_store w) (cacheTTL w))) as Hstored.
  { subst r. rewrite (handle_forwarded _ _ _ _ _ None); [| done | done |].
    2: { unfold served_from_cache. fold path. by rewrite Hon, Hmiss. }
    fold path. rewrite Hfetch, Hread, Hok, Hon. simpl.
    destruct (NextResponse_json _ _ _); simpl; by rewrite lookup_insert_eq. }
  split; [done |].
  apply (handle_hit _ _ _ _ _ None (mkCached d (now_store w) (cacheTTL w)));
    [done | done | | done].
  unfold served_from_cache. fold path. rewrite Hon', Hstored, Httl. simpl.
  by apply Z.ltb_lt.
Qed.
End ProxyFacts.

Lemma unknown_target_is_not_forwarded_witness :
  Proxy.handleProxyRequest sample_proxy_request ["orders"; "7"] "GET" (sample_world 200)
    (Proxy.mkProxyState ∅ [])
  = (Returned (Proxy.mkProxyResponse 404 []
       (Proxy.ErrorJson "API endpoint 'orders/7' not configured")),
     Proxy.mkProxyState ∅ []).
Proof.
  apply (unknown_target_is_not_forwarded (Data := string) sample_proxy_request
           ["orders"; "7"] "GET" (sample_world 200) (Proxy.mkProxyState ∅ [])).
  - discriminate.
  - discriminate.
  - intros Hin. apply list_elem_of_In in Hin. simpl in Hin. intuition discriminate.
Defined.

Lemma inherited_name_is_forwarded_witness :
  let w := Proxy.mkWorld (Proxy.mkEnv None None None None)
             (λ _ _ _ _, Threw (ErrorInstance "TypeError" "Invalid URL")) 0 0 in
  Proxy.fetches (Proxy.mkProxyState ∅ [])
    (Proxy.handleProxyRequest (Data := string) sample_proxy_request ["toString"] "GET" w
       (Proxy.mkProxyState ∅ [])).2
  = [Proxy.Fetch "undefined?id=1" "GET" (Proxy.copy_headers sample_proxy_request) None].
Proof.
  intros w.
  apply (inherited_name_is_forwarded (Data := string) sample_proxy_request ["toString"] w
           (Proxy.mkProxyState ∅ [])).
  - apply list_elem_of_In. simpl. tauto.
  - reflexivity.
Defined.

Lemma cache_hit_iff_entry_younger_than_ttl_witness :
  let s := Proxy.mkProxyState {["users:?id=1" := Proxy.mkCached "[0]" 0 None]} [] in
  Proxy.handleProxyRequest sample_proxy_request ["users"] "GET" (sample_world 200) s
  = (Returned (Proxy.hit_response (Proxy.mkCached "[0]" 0 None)), s).
Proof.
  intros s.
  apply (cache_hit_iff_entry_younger_than_ttl (Data := string) sample_proxy_request
           ["users"] (sample_world 200) s (Proxy.mkCached "[0]" 0 None)).
  - discriminate.
  - reflexivity.
  - reflexivity.
  - reflexivity.
Defined.

Lemma only_ok_GET_answers_are_cached_witness :
  Proxy.responseCache
    (Proxy.handleProxyRequest sample_proxy_request ["users"] "POST" (sample_world 200)
       (Proxy.mkProxyState ∅ [])).2
  = ∅.
Proof.
  apply (only_ok_GET_answers_are_cached (Data := string) sample_proxy_request ["users"]
           "POST" (sample_world 200) (Proxy.mkProxyState ∅ [])).
  left. discriminate.
Defined.


Lemma fetched_answer_is_served_from_cache_witness :
  let s1 := (Proxy.handleProxyRequest sample_proxy_request ["users"] "GET" (sample_world 200)
               (Proxy.mkProxyState ∅ [])).2 in
  let later := Proxy.mkWorld (Proxy.mkEnv None None (Some "true") (Some "60000"))
                 (λ _ _ _ _, Threw (ErrorInstance "AbortError" "aborted")) 61004 61004 in
  Proxy.handleProxyRequest sample_proxy_request ["users"] "GET" later s1
  = (Returned (Proxy.mkProxyResponse 200
                 [("X-Cache", "HIT"); ("Cache-Control", "public, max-age=300")]
                 (Proxy.DataJson "[1]")), s1).
Proof.
  intros s1 later.
  apply (fetched_answer_is_served_from_cache (Data := string) sample_proxy_request
           ["users"] (sample_world 200) later (Proxy.mkProxyState ∅ [])
           (sample_fetched 200) "[1]" 60000).
  - discriminate.
  - reflexivity.
  - reflexivity.
  - reflexivity.
  - reflexivity.
  - reflexivity.
  - discriminate.
  - reflexivity.
  - reflexivity.
  - simpl. lia.
Defined.

(** * The [useApi] hook *)

Section UseApiFacts.
Import UseApi.
Implicit Types (o : Options) (h : Hook) (fetch : nat → outcome Fetched).

(** What [retryRequest] throws is always an [Error]. *)
Lemma retry_throws_errors {T} (requestFn : nat → outcome T) maxRetries delay err :
  Retry.result (Retry.retryRequest requestFn maxRetries delay) = Threw err →
  instanceofError err = true.
Proof.
  unfold Retry.retryRequest.
  generalize (Z.to_nat (default 3 maxRetries)) as iterations.
  generalize 1 as attempt. generalize (@None thrown) as lastError.
  generalize 0%nat as ncalls. generalize (@nil Z) as waits.
  intros waits ncalls lastError attempt iterations.
  assert (∀ e : thrown, instanceofError (Retry.toError e) = true) as Herror.
  { intros e. unfold Retry.toError. by destruct (instanceofError e) eqn:He. }
  revert waits ncalls lastError attempt.
  induction iterations as [|iterations IH]; intros waits ncalls lastError attempt.
  - simpl. destruct lastError; simpl; by intros [= <-].
  - rewrite loop_step. destruct (requestFn ncalls) as [v|e]; [done |].
    destruct (attempt =? default 3 maxRetries); [| apply IH].
    simpl. intros [= <-]. apply Herror.
Qed.

Lemma fresh_get cacheMap key (v : json) t ttl_v now :
  now - t ≤ ttl_v →
  ApiCache.get (ApiCache.set cacheMap key v (Some ttl_v) t) key now
  = (Some v, ApiCache.set cacheMap key v (Some ttl_v) t).
Proof.
  intros Hfresh.
  by rewrite (get_fresh _ _ (mkCacheEntry v t ttl_v)) by (apply set_lookup || done).
Qed.

(** A [GET] with the cache on that finds nothing usable in the cache and
    whose request (with its retries) ends with [result] leaves the hook
    settled with that data and no error, and the result in the cache under
    the key of the endpoint and body.  A later [fetchData], made while the
    age of the entry is within [cacheTTL], takes a truthy result from the
    cache and sends nothing (the hook stays as it was); a falsy result ([0],
    [false], [null], the empty string) is never taken from the cache: the
    request is sent again. *)
Theorem fetched_data_is_reused_while_fresh o fetch fetch' h result
    now_get now_set now_get' now_set' :
  enabled_of o = true → uses_cache o = true →
  js_truthy (ApiCache.get (apiCache h) (cacheKey o) now_get).1 = false →
  Retry.result (Retry.retryRequest (requestFn fetch) (Some (retries_of o))
                  (Some (retryDelay_of o))) = Returned result →
  now_get' - now_set ≤ cacheTTL_of o →
  let h1 := fetchData o fetch now_get now_set h in
  let h2 := fetchData o fetch' now_get' now_set' h1 in
  data h1 = Some result ∧ error h1 = None ∧ loading h1 = false ∧ controller h1 = false
  ∧ apiCache h1 !! cacheKey o = Some (mkCacheEntry result now_set (cacheTTL_of o))
  ∧ (Json.truthy result = true → h2 = h1)
  ∧ (Json.truthy result = false →
     requests h2
     = (requests h1
        + Retry.calls (Retry.retryRequest (requestFn fetch') (Some (retries_of o))
                         (Some (retryDelay_of o))))%nat).
Proof.
  intros Hon Hcache Hmiss Hrun Hfresh h1 h2.
  assert (h1 = mkHook (Some result) false None false
                 (ApiCache.set (ApiCache.get (apiCache h) (cacheKey o) now_get).2
                    (cacheKey o) result (Some (cacheTTL_of o)) now_set)
                 (requests h + Retry.calls (Retry.retryRequest (requestFn fetch)
                                              (Some (retries_of o)) (Some (retryDelay_of o))))
                 (if controller h then S (aborts h) else aborts h)
                 (waited h ++ Retry.waits (Retry.retryRequest (requestFn fetch)
                                             (Some (retries_of o)) (Some (retryDelay_of o)))))
    as Hh1.
  { subst h1. unfold fetchData. rewrite Hon, Hcache. simpl.
    destruct (ApiCache.get (apiCache h) (cacheKey o) now_get) as [cached cache'].
    simpl in *. rewrite Hmiss. unfold request. simpl. rewrite Hrun, Hcache. done. }
  rewrite Hh1. simpl. split; [done |]. split; [done |]. split; [done |]. split; [done |].
  split; [apply set_lookup |].
  subst h2. rewrite Hh1. unfold fetchData. rewrite Hon, Hcache. simpl.
  rewrite fresh_get by done. simpl.
  split; intros Htruthy; rewrite Htruthy; [done |].
  unfold request. simpl.
  destruct (Retry.result (Retry.retryRequest (requestFn fetch') _ _)) as [v|err]; simpl.
  - done.
  - unfold catch. by destruct (instanceofError err && _).
Qed.

(** When the request fails for good, the hook keeps the data it had, is
    settled (not loading, no controller), and the cache holds nothing it did
    not hold before.  Its error is the message of the last failure (what
    [retryRequest] throws is always an [Error], so never the fallback text),
    except that an aborted request leaves no error at all. *)
Theorem failed_fetch_keeps_data o fetch h err now_get now_set :
  enabled_of o = true →
  (uses_cache o = true →
   js_truthy (ApiCache.get (apiCache h) (cacheKey o) now_get).1 = false) →
  Retry.result (Retry.retryRequest (requestFn fetch) (Some (retries_of o))
                  (Some (retryDelay_of o))) = Threw err →
  let h1 := fetchData o fetch now_get now_set h in
  data h1 = data h ∧ loading h1 = false ∧ controller h1 = false
  ∧ error h1 = (if bool_decide (Proxy.error_name err = Some "AbortError") then None
                else Some (message_of err))
  ∧ (∀ key entry, apiCache h1 !! key = Some entry → apiCache h !! key = Some entry).
Proof.
  intros Hon Hmiss Hrun h1. subst h1.
  pose proof (retry_throws_errors _ _ _ _ Hrun) as Herr.
  unfold fetchData. rewrite Hon. simpl.
  assert (∀ h0, request o fetch now_set h0
                = catch err (mkHook (data h0) (loading h0) (error h0) (controller h0)
                    (apiCache h0)
                    (requests h0 + Retry.calls (Retry.retryRequest (requestFn fetch)
                                                  (Some (retries_of o))
                                                  (Some (retryDelay_of o))))
                    (aborts h0)
                    (waited h0 ++ Retry.waits (Retry.retryRequest (requestFn fetch)
                                                 (Some (retries_of o))
                                                 (Some (retryDelay_of o)))))) as Hreq.
  { intros h0. unfold request. by rewrite Hrun. }
  destruct (uses_cache o) eqn:Hcache.
  - specialize (Hmiss eq_refl).
    assert (∀ key entry,
      (ApiCache.get (apiCache h) (cacheKey o) now_get).2 !! key = Some entry →
      apiCache h !! key = Some entry) as Hevict.
    { intros key entry. unfold ApiCache.get.
      destruct (apiCache h !! cacheKey o) as [item|]; [| done].
      destruct (now_get - timestamp item >? ttl item); simpl; [| done].
      intros Hl. apply lookup_delete_Some in Hl. by destruct Hl. }
    destruct (ApiCache.get (apiCache h) (cacheKey o) now_get) as [cached cache'].
    simpl in *. rewrite Hmiss, Hreq. unfold catch. rewrite Herr. simpl.
    destruct (bool_decide _); simpl; done.
  - rewrite Hreq. unfold catch. rewrite Herr. simpl.
    destruct (bool_decide _); simpl; done.
Qed.

(** [mutate] writes through: after [mutate(newData)] on a [GET] hook with
    the cache on, a [fetchData] made while the age of the entry is within
    [cacheTTL] serves a truthy [newData] from the cache and sends nothing.
    A hook that is not enabled does nothing at all, and a hook without the
    cache (or not a [GET]) never touches the cache. *)
Theorem mutate_writes_through o fetch h newData now now_get now_set :
  (enabled_of o = true → uses_cache o = true → Json.truthy newData = true →
   now_get - now ≤ cacheTTL_of o →
   let h1 := mutate o newData now h in
   let h2 := fetchData o fetch now_get now_set h1 in
   data h2 = Some newData ∧ requests h2 = requests h ∧ apiCache h2 = apiCache h1)
  ∧ (enabled_of o = false → fetchData o fetch now_get now_set h = h)
  ∧ (uses_cache o = false →
     apiCache (fetchData o fetch now_get now_set h) = apiCache h
     ∧ apiCache (mutate o newData now h) = apiCache h).
Proof.
  split; [| split].
  - intros Hon Hcache Htruthy Hfresh h1 h2. subst h2 h1.
    unfold fetchData, mutate. rewrite Hon, Hcache. simpl.
    rewrite fresh_get by done. simpl. by rewrite Htruthy.
  - intros Hoff. unfold fetchData. by rewrite Hoff.
  - intros Hcache. unfold mutate, fetchData. rewrite Hcache. split; [| done].
    destruct (enabled_of o); simpl; [| done].
    unfold request. simpl. rewrite Hcache.
    destruct (Retry.result _) as [v|err]; simpl; [done |].
    unfold catch. by destruct (instanceofError err && _).
Qed.
End UseApiFacts.

Lemma fetched_data_is_reused_while_fresh_witness :
  let fetch := λ k : nat,
    if (k <? 1)%nat then Threw (OtherValue "offline")
    else Returned (UseApi.mkFetched true 200 (Returned (JArray [JNumber 1]))) in
  let h1 := UseApi.fetchData (default_options "users") fetch 0 5 idle_hook in
  UseApi.data h1 = Some (JArray [JNumber 1])
  ∧ UseApi.requests h1 = 2%nat
  ∧ UseApi.fetchData (default_options "users") (λ _, Threw (OtherValue "offline"))
      300005 300005 h1 = h1.
Proof.
  intros fetch h1.
  destruct (fetched_data_is_reused_while_fresh (default_options "users") fetch
              (λ _, Threw (OtherValue "offline")) idle_hook (JArray [JNumber 1])
              0 5 300005 300005) as (Hdata & _ & _ & _ & _ & Hreuse & _).
  - reflexivity.
  - reflexivity.
  - reflexivity.
  - reflexivity.
  - unfold UseApi.cacheTTL_of. simpl. lia.
  - split; [exact Hdata |]. split; [reflexivity |]. apply Hreuse. reflexivity.
Defined.

Lemma failed_fetch_keeps_data_witness :
  let fetch := λ _ : nat, Returned (UseApi.mkFetched false 503 (Returned JNull)) in
  let h := UseApi.mkHook (Some (JString "old")) false None false ∅ 0 0 [] in
  let h1 := UseApi.fetchData (default_options "users") fetch 0 5 h in
  UseApi.data h1 = Some (JString "old")
  ∧ UseApi.error h1 = Some "HTTP error! status: 503".
Proof.
  intros fetch h h1.
  destruct (failed_fetch_keeps_data (default_options "users") fetch h
              (ErrorInstance "Error" "HTTP error! status: 503") 0 5)
    as (Hdata & _ & _ & Herror & _).
  - reflexivity.
  - reflexivity.
  - reflexivity.
  - exact (conj Hdata Herror).
Defined.

Lemma mutate_writes_through_witness :
  let h1 := UseApi.mutate (default_options "users") (JString "draft") 10 idle_hook in
  UseApi.data (UseApi.fetchData (default_options "users")
                 (λ _, Threw (OtherValue "offline")) 20 20 h1)
  = Some (JString "draft").
Proof.
  intros h1.
  destruct (mutate_writes_through (default_options "users")
              (λ _, Threw (OtherValue "offline")) idle_hook (JString "draft") 10 20 20)
    as [Hthrough _].
  destruct Hthrough as (Hdata & _ & _).
  - reflexivity.
  - reflexivity.
  - reflexivity.
  - unfold UseApi.cacheTTL_of. simpl. lia.
  - exact Hdata.
Defined.

(** * The API client *)

Section ApiClientFacts.
Import ApiClient.
Implicit Types (c : Client) (fetch : string → FetchInit → outcome Fetched)
  (options : Options).

(** How [request] fails.  Whatever it throws is an [Error].  An aborted
    [fetch] becomes "Request timeout after N ms" where N is the timeout of the
    options, or the client's default when the options give none or give 0.
    An answer that is not ok never returns: it throws the [message] of the
    parsed body when that is truthy, and "HTTP status: statusText" when the
    body has no truthy [message] or cannot be parsed. *)
Theorem request_failures c fetch endpoint options :
  let url := baseUrl c +:+ endpoint in
  let r := request c fetch endpoint options in
  (∀ e, r = Threw e → instanceofError e = true)
  ∧ (∀ message, fetch url (init_of c options) = Threw (ErrorInstance "AbortError" message) →
       r = Threw (ErrorInstance "Error"
                    ("Request timeout after " +:+ pretty (timeout_of c options) +:+ "ms"))
       ∧ (timeout options = None ∨ timeout options = Some 0 →
          timeout_of c options = defaultTimeout c))
  ∧ (∀ response, fetch url (init_of c options) = Returned response →
       response_ok response = false →
       (∃ e, r = Threw e)
       ∧ (∀ fields message,
            response_json response = Returned (JObject fields) →
            Json.field "message" fields = Some message → Json.truthy message = true →
            r = Threw (ErrorInstance "Error" (js_string message)))
       ∧ ((∃ e, response_json response = Threw e)
          ∨ (∃ fields, response_json response = Returned (JObject fields)
                       ∧ js_truthy (Json.field "message" fields) = false) →
          r = Threw (ErrorInstance "Error"
                       ("HTTP " +:+ pretty (response_status response) +:+ ": "
                        +:+ statusText response)))).
Proof.
  intros url r. subst r. unfold request. fold url. split; [| split].
  - intros e. destruct (request_try fetch url (init_of c options)) as [v|err]; [done |].
    destruct (instanceofError err) eqn:Herr; [| by intros [= <-]].
    destruct (bool_decide _); intros [= <-]; done.
  - intros message Hfetch. unfold request_try. rewrite Hfetch.
    cbn [instanceofError]. rewrite bool_decide_eq_true_2 by done. split; [done |].
    unfold timeout_of. by intros [-> | ->].
  - intros response Hfetch Hnotok. unfold request_try. rewrite Hfetch, Hnotok. simpl.
    split; [| split].
    + destruct (error_message _) as [message|err]; cbn [instanceofError].
      * rewrite bool_decide_eq_false_2 by discriminate. by eexists.
      * destruct (instanceofError err); [| by eexists].
        destruct (bool_decide _); by eexists.
    + intros fields message -> Hfield Htruthy. cbn [error_message property].
      rewrite Hfield. cbn [js_truthy instanceofError default]. rewrite Htruthy.
      by rewrite bool_decide_eq_false_2 by discriminate.
    + intros [[e ->] | (fields & -> & Hfalsy)]; cbn [error_message property].
      * cbn [Json.field js_truthy instanceofError].
        by rewrite bool_decide_eq_false_2 by discriminate.
      * rewrite Hfalsy. cbn [instanceofError].
        by rewrite bool_decide_eq_false_2 by discriminate.
Qed.

(** Headers given with a call replace the client's headers instead of
    adding to them: [post] with a configuration that has [headers] sends
    exactly those, so the client's default [Content-Type] goes out only if
    the caller repeats it; without [headers] in the configuration the client's
    headers are sent, [Content-Type: application/json] among them unless the
    constructor was given another. *)
Theorem call_headers_replace_defaults baseUrl_v ctor_headers ctor_timeout fetch endpoint
    data config :
  let c := new baseUrl_v ctor_headers ctor_timeout in
  let sent h := fetch (baseUrl_v +:+ endpoint) (mkInit (Some "POST") (body_of data) h) in
  let finish o :=
    request c (λ _ _, o) endpoint (with_config "POST" (Some (body_of data)) config) in
  (∀ h, config ≫= config_headers = Some h →
        post c fetch endpoint data config = finish (sent h))
  ∧ (config ≫= config_headers = None →
     post c fetch endpoint data config = finish (sent (defaultHeaders c))
     ∧ (default ∅ ctor_headers !! "Content-Type" = None →
        defaultHeaders c !! "Content-Type" = Some "application/json")).
Proof.
  intros c sent finish. subst sent finish. unfold post, request, request_try, init_of.
  simpl. split.
  - intros h ->. simpl. done.
  - intros ->. simpl. rewrite (left_id_L ∅ (∪)). split; [done |].
    intros Hnone. rewrite lookup_union_r by done. apply lookup_singleton_eq.
Qed.
End ApiClientFacts.

Lemma request_failures_witness :
  let c := ApiClient.new "/api/proxy" None None in
  ApiClient.request c (λ _ _, Threw (ErrorInstance "AbortError" "This operation was aborted"))
    "/users" (ApiClient.mkOptions (Some "GET") None None (Some 0) None)
  = Threw (ErrorInstance "Error" "Request timeout after 10000ms").
Proof.
  intros c.
  destruct (request_failures c
              (λ _ _, Threw (ErrorInstance "AbortError" "This operation was aborted"))
              "/users" (ApiClient.mkOptions (Some "GET") None None (Some 0) None))
    as (_ & Habort & _).
  destruct (Habort "This operation was aborted") as [Hr _]; [reflexivity |].
  exact Hr.
Defined.

Lemma call_headers_replace_defaults_witness :
  let c := ApiClient.new "/api/proxy" None None in
  let fetch := λ (_ : string) (init : ApiClient.FetchInit),
    match ApiClient.init_headers init !! "Content-Type" with
    | Some _ => Returned (ApiClient.mkFetched true 200 "OK" (Returned (JString "typed")))
    | None => Returned (ApiClient.mkFetched true 200 "OK" (Returned (JString "untyped")))
    end in
  ApiClient.post c fetch "/users" (Some (JNumber 1))
    (Some (ApiClient.mkRequestConfig (Some {["Authorization" := "Bearer t"]}) None None))
  = Returned (JString "untyped").
Proof.
  intros c fetch.
  destruct (call_headers_replace_defaults "/api/proxy" None None fetch "/users"
              (Some (JNumber 1))
              (Some (ApiClient.mkRequestConfig (Some {["Authorization" := "Bearer t"]})
                       None None))) as [Hgiven _].
  etrans; [apply (Hgiven {["Authorization" := "Bearer t"]}); reflexivity |].
  vm_compute. reflexivity.
Defined.

(** * The question widget *)

Section WelcomeFacts.
Context `{Constants}.
Import Welcome.
Implicit Types (w : Widget) (fetch : outcome Fetched).

Lemma attempt_keeps_storage fetch now_read w :
  localStorage (attempt fetch now_read w) = localStorage w
  ∧ sent (attempt fetch now_read w) = sent w.
Proof.
  unfold attempt. destruct fetch as [answer|err]; [| done].
  destruct (response_json answer) as [parsed|err]; [| done].
  destruct (response_ok answer); simpl.
  - by destruct (read_property parsed "response").
  - by destruct (read_property parsed "error").
Qed.

(** The widget spends client quota only on what it sends, and before
    sending it.  A blank input is refused with a message: no quota is spent
    and nothing is sent.  A denied check sends nothing and leaves the stored
    timestamps alone.  An allowed check sends exactly one request, and the
    timestamp it stored stays stored however the request ends (sent, failed
    or answered with an error); the widget is not loading when it is done. *)
Theorem widget_spends_quota_before_sending fetch now_check now_read w :
  let w' := handleRequest fetch now_check now_read w in
  let checked := ClientRateLimiter.checkLimit (localStorage w) now_check in
  (all_whitespace (input w) = true →
   w' = mkWidget (input w) (response w) (isLoading w)
          "Please enter some text to translate" (remainingRequests w) (localStorage w)
          (sent w))
  ∧ (all_whitespace (input w) = false → checked.1 = false →
     error w' = "Rate limit exceeded. Please try again later."
     ∧ sent w' = sent w ∧ localStorage w' = localStorage w)
  ∧ (all_whitespace (input w) = false → checked.1 = true →
     sent w' = sent w ++ [Json.stringify (JObject [("input", JString (input w))])]
     ∧ localStorage w' = checked.2
     ∧ isLoading w' = false).
Proof.
  intros w' checked. subst w' checked. unfold handleRequest.
  assert (String.eqb (InputValidator.trim (input w)) "" = all_whitespace (input w)) as ->.
  { rewrite <- (trim_empty (input w)). by destruct (InputValidator.trim (input w)). }
  destruct (all_whitespace (input w)); [by repeat split |].
  split; [done |].
  destruct (ClientRateLimiter.checkLimit (localStorage w) now_check) as [[|] storage] eqn:Hcheck;
    simpl.
  - split; [done |]. intros _ _.
    set (w1 := mkWidget _ _ true "" _ storage _).
    destruct (attempt_keeps_storage fetch now_read w1) as [Hstorage Hsent].
    by rewrite Hstorage, Hsent.
  - split; [| done]. intros _ _. split; [done |]. split; [done |].
    rewrite client_checkLimit_cases in Hcheck.
    match type of Hcheck with context [if ?b then _ else _] => destruct b end;
      [by injection Hcheck as <- | discriminate Hcheck].
Qed.
End WelcomeFacts.

Lemma widget_spends_quota_before_sending_witness :
  let w := Welcome.mkWidget "How big is the earth?" (Some (JString "")) false "" 2 ∅ [] in
  let w' := Welcome.handleRequest (H := sample_constants)
              (Threw (ErrorInstance "TypeError" "Failed to fetch")) 100 101 w in
  length (Welcome.sent w') = 1%nat
  ∧ ClientRateLimiter.requests_of (Welcome.localStorage w') = [100]
  ∧ Welcome.error w' = "Failed to fetch".
Proof.
  intros w w'.
  destruct (widget_spends_quota_before_sending (H := sample_constants)
              (Threw (ErrorInstance "TypeError" "Failed to fetch")) 100 101 w)
    as (_ & _ & Hallowed).
  destruct Hallowed as (Hsent & Hstorage & _); [reflexivity | reflexivity |].
  subst w'. split; [by rewrite Hsent |]. split; [by rewrite Hstorage | reflexivity].
Defined.
